(** * Monte Carlo integration notebook (ejercicios/10/integral_MC.ipynb)

    The notebook has two code cells of the same shape.  Each one binds the
    global names [f], [integral_analitica] and [integral_monte_carlo], builds
    the array of sample counts [puntos] and runs a ten-step loop that stores
    the relative error of the Monte Carlo estimate in [diferencias].

    The embedding keeps the three ingredients of the Python code apart:

    - numbers: every arithmetic operation the cells perform goes through the
      interface [Scalar]; it is instantiated by binary64 floating-point
      numbers (what numpy computes with, special values included) and by the
      real numbers (the arithmetic the notebook's formulas are written in);
    - the global numpy generator: a [RandomState] threaded through a small
      state-and-exception monad;
    - numpy's [logspace] and the cast [np.int_], over the real numbers. *)

From Stdlib Require Import ZArith List Bool Lia Reals Lra Permutation.
From Stdlib Require Import Floats.SpecFloat.
Import ListNotations.

(** ** Python outcomes *)

(** The two exceptions that the modelled numpy and list operations raise. *)
Inductive exn : Type :=
| ValueError   (* numpy: "negative dimensions are not allowed" *)
| IndexError.  (* index out of bounds *)

Inductive result (X : Type) : Type :=
| Ok (x : X)
| Raise (e : exn).

Arguments Ok {X} x.
Arguments Raise {X} e.

(** ** Numbers *)

(** The operations on float64 scalars that the two cells use:
    [0.0] (the empty sum), [1.0] ([np.ones]), [+] ([np.sum]), [-], [/],
    [np.abs], and the conversion of an integer sample count to a float. *)
Class Scalar (A : Type) : Type := {
  zero : A;
  one : A;
  add : A -> A -> A;
  sub : A -> A -> A;
  div : A -> A -> A;
  absolute : A -> A;
  of_int : Z -> A
}.

(** [np.abs] distributes over [/]: the only law the statements below use. *)
Class ScalarLaws (A : Type) `{Scalar A} : Prop := {
  absolute_div : forall x y : A, absolute (div x y) = div (absolute x) (absolute y)
}.

(** binary64, as specified by IEEE 754 (precision 53, [emax] 1024). *)
Module B64.
Definition prec : Z := 53.
Definition emax : Z := 1024.
Definition t : Type := spec_float.

Definition pzero : t := S754_zero false.
Definition pinf : t := S754_infinity false.
Definition nan : t := S754_nan.
Definition of_Z (n : Z) : t := binary_normalize prec emax n 0 false.

Definition is_finite (x : t) : bool :=
  match x with
  | S754_zero _ | S754_finite _ _ _ => true
  | S754_infinity _ | S754_nan => false
  end.
End B64.

#[global] Instance Scalar_binary64 : Scalar B64.t := {|
  zero := B64.pzero;
  one := SFone B64.prec B64.emax;
  add := SFadd B64.prec B64.emax;
  sub := SFsub B64.prec B64.emax;
  div := SFdiv B64.prec B64.emax;
  absolute := SFabs;
  of_int := B64.of_Z
|}.

#[global] Instance Scalar_real : Scalar R := {|
  zero := 0%R;
  one := 1%R;
  add := Rplus;
  sub := Rminus;
  div := Rdiv;
  absolute := Rabs;
  of_int := IZR
|}.

(** ** The global random generator *)

(** numpy's legacy global generator is a deterministic stream.  The state
    records what the generator returns at every position of the stream, for a
    uniform draw on [0,1) and for a standard exponential draw, and the current
    position; both kinds of draw use up one position per sample. *)
Record RandomState (A : Type) : Type := {
  random_sample : nat -> A;
  standard_exponential : nat -> A;
  pos : nat
}.

Arguments random_sample {A} r _.
Arguments standard_exponential {A} r _.
Arguments pos {A} r.

Definition advance {A} (s : RandomState A) (n : nat) : RandomState A :=
  {| random_sample := random_sample s;
     standard_exponential := standard_exponential s;
     pos := pos s + n |}.

(** A computation reads and updates the generator, and may raise. *)
Definition M (A X : Type) : Type := RandomState A -> result (X * RandomState A).

Definition ret {A X} (x : X) : M A X := fun s => Ok (x, s).

Definition bind {A X Y} (c : M A X) (k : X -> M A Y) : M A Y :=
  fun s => match c s with
           | Ok (x, s') => k x s'
           | Raise e => Raise e
           end.

Definition raise {A X} (e : exn) : M A X := fun _ => Raise e.

Notation "x <- c ;; k" := (bind c (fun x => k))
  (at level 61, c at next level, right associativity).

Section Numpy.
Context {A : Type} `{Scalar A}.

(** [np.random.random(N)]: [N] uniform draws; a negative size is rejected.
    The model covers the sizes numpy accepts and can allocate: numpy also
    rejects a size of [2^63] or more and fails on a size beyond the memory of
    the machine. *)
Definition np_random_random (N : Z) : M A (list A) :=
  fun s =>
    if (N <? 0)%Z then Raise ValueError
    else Ok (map (random_sample s) (seq (pos s) (Z.to_nat N)),
             advance s (Z.to_nat N)).

(** [np.random.exponential(size=N)], scale 1; sizes as for
    [np_random_random]. *)
Definition np_random_exponential (N : Z) : M A (list A) :=
  fun s =>
    if (N <? 0)%Z then Raise ValueError
    else Ok (map (standard_exponential s) (seq (pos s) (Z.to_nat N)),
             advance s (Z.to_nat N)).

(** [np.sum] of a one-dimensional array; the sum of the empty array is 0.0.
    numpy adds the elements of a long float array pairwise, in blocks; the
    order of the additions changes the binary64 result by rounding only and
    does not change the real one, and no statement below depends on it. *)
Definition np_sum (x : list A) : A := fold_left add x zero.

(** [np.ones(n)]. *)
Definition np_ones (n : nat) : list A := repeat one n.

(** [a[i]] on a Python sequence, for a non-negative index. *)
Definition getitem {X} (a : list X) (i : nat) : M A X :=
  match nth_error a i with
  | Some x => ret x
  | None => raise IndexError
  end.

(** [a[i] = v]. *)
Fixpoint setitem_list {X} (a : list X) (i : nat) (v : X) : option (list X) :=
  match a, i with
  | [], _ => None
  | _ :: a', O => Some (v :: a')
  | x :: a', S i' => option_map (cons x) (setitem_list a' i' v)
  end.

Definition setitem {X} (a : list X) (i : nat) (v : X) : M A (list X) :=
  match setitem_list a i v with
  | Some a' => ret a'
  | None => raise IndexError
  end.

(** [for i in range(n): acc = body(i, acc)], starting at index [i0]. *)
Fixpoint for_range {X} (i0 n : nat) (body : nat -> X -> M A X) (acc : X) : M A X :=
  match n with
  | O => ret acc
  | S n' => acc' <- body i0 acc ;; for_range (S i0) n' body acc'
  end.

(** The value of an omitted sample-count argument: [def ...(N=100)]. *)
Definition default_N (N : option Z) : Z :=
  match N with
  | Some n => n
  | None => 100%Z
  end.

(** [np.abs((a-b)/a)], the quantity stored in [diferencias[i]]. *)
Definition relative_error (a b : A) : A := absolute (div (sub a b) a).

(** The loop shared by both cells.  The global names it reads are
    arguments: the reference value [integral_analitica()], the estimator
    bound to [integral_monte_carlo] when the cell runs, and the arrays.

<<
    diferencias = np.ones(n_intentos)
    for i in range(n_intentos):
        a = integral_analitica()
        b = integral_monte_carlo(N=puntos[i])
        diferencias[i] =  (np.abs((a-b)/a))
>> *)
Definition sweep_body (integral_analitica : A)
    (integral_monte_carlo : option Z -> M A A) (puntos : list Z)
    (i : nat) (diferencias : list A) : M A (list A) :=
  let a := integral_analitica in
  N <- getitem puntos i ;;
  b <- integral_monte_carlo (Some N) ;;
  setitem diferencias i (relative_error a b).

Definition convergence_sweep (integral_analitica : A)
    (integral_monte_carlo : option Z -> M A A)
    (n_intentos : nat) (puntos : list Z) : M A (list A) :=
  for_range 0 n_intentos
    (sweep_body integral_analitica integral_monte_carlo puntos)
    (np_ones n_intentos).
End Numpy.

(** ** First cell: uniform samples on [0,1) *)
Module Example1.
Section Cell.
Context {A : Type} `{Scalar A}.
(** The integrand bound to the global name [f] ([np.exp] in the cell),
    applied element by element. *)
Variable f : A -> A.

(**
<<
  def integral_monte_carlo(N=100):
      x = np.random.random(N)
      return np.sum(f(x))/N
>> *)
Definition integral_monte_carlo (N : option Z) : M A A :=
  let N := default_N N in
  x <- np_random_random N ;;
  ret (div (np_sum (map f x)) (of_int N)).

Variable integral_analitica : A.

Definition diferencias (n_intentos : nat) (puntos : list Z) : M A (list A) :=
  convergence_sweep integral_analitica integral_monte_carlo n_intentos puntos.
End Cell.

(** The cell's own integrand and closed form, in real arithmetic. *)
Definition f : R -> R := exp.
Definition integral_analitica : R := (exp 1 - 1)%R.
End Example1.

(** ** Second cell: exponentially distributed samples *)
Module Example2.
Section Cell.
Context {A : Type} `{Scalar A}.
Variable f : A -> A.

(**
<<
  def integral_monte_carlo(N=100):
      x = np.random.exponential(size=N)
      return np.sum(f(x))/N
>> *)
Definition integral_monte_carlo (N : option Z) : M A A :=
  let N := default_N N in
  x <- np_random_exponential N ;;
  ret (div (np_sum (map f x)) (of_int N)).

Variable integral_analitica : A.

Definition diferencias (n_intentos : nat) (puntos : list Z) : M A (list A) :=
  convergence_sweep integral_analitica integral_monte_carlo n_intentos puntos.
End Cell.

Definition f : R -> R := sin.
Definition integral_analitica : R := (1 / 2)%R.
End Example2.

(** ** Sample counts *)

(** [np.linspace(start, stop, num)]: [num] evenly spaced exponents, both
    ends included: [start + i * step] with [step = (stop - start) / (num - 1)].
    numpy also overwrites the last point with [stop]; over the reals the
    formula already gives [stop] there. *)
Definition np_linspace (start stop : R) (num : nat) : list R :=
  let step := ((stop - start) / INR (num - 1))%R in
  map (fun i => (start + INR i * step)%R) (seq 0 num).

(** [np.logspace(start, stop, num)] is [10 ** np.linspace(start, stop, num)].
    The powers are taken over the reals.  For the notebook's arguments the
    two end points are exact in binary64 as well and the eight inner points
    lie more than 0.1 away from every integer, so the rounding of the
    binary64 power does not change the integer part taken by [np_int_]. *)
Definition np_logspace (start stop : R) (num : nat) : list R :=
  map (Rpower 10) (np_linspace start stop num).

(** The cast of a float to an integer, [np.int_]: the fractional part is
    dropped (truncation toward zero).  The integer is unbounded here; numpy's
    is a signed 64-bit one, so the model covers values below [2^63], that is
    exponents of [np_logspace] up to 18. *)
Definition int_of_float (x : R) : Z :=
  if Rle_dec 0 x then Int_part x else (- Int_part (- x))%Z.

Definition np_int_ (x : list R) : list Z := map int_of_float x.

Definition n_intentos : nat := 10.

(** [puntos = np.int_(np.logspace(1,5,n_intentos))] *)
Definition puntos : list Z := np_int_ (np_logspace 1 5 n_intentos).

(** The nearest integer to a real number, as the specification words it. *)
Definition nearest_integer (x : R) : Z := Int_part (x + / 2).

(** The ten sample counts, written out. *)
Definition puntos_values : list Z :=
  [10; 27; 77; 215; 599; 1668; 4641; 12915; 35938; 100000]%Z.

(** A sequence of sample counts that never goes down. *)
Definition nondecreasing (l : list Z) : Prop :=
  forall i j : nat, (i <= j < length l)%nat -> (nth i l 0 <= nth j l 0)%Z.

(** ** Sample mean *)

(** The sum and the arithmetic mean of a finite sequence, as the
    specification writes them. *)
Definition Rsum (l : list R) : R := fold_right Rplus 0%R l.

Definition arithmetic_mean (l : list R) : R := (Rsum l / INR (length l))%R.

(** ** Invocations of an estimator *)

Section Invocations.
Context {A : Type}.
Variable est : option Z -> M A A.

(** [runs Ns s bs s']: starting from generator state [s], the estimator is
    invoked once for each sample count of [Ns], from the first to the last,
    each invocation starting in the state the previous one left; [bs] are
    the estimates and [s'] is the final state. *)
Inductive runs : list Z -> RandomState A -> list A -> RandomState A -> Prop :=
| runs_nil (s : RandomState A) : runs [] s [] s
| runs_cons (N : Z) (Ns : list Z) (s s1 s' : RandomState A) (b : A) (bs : list A) :
    est (Some N) s = Ok (b, s1) ->
    runs Ns s1 bs s' ->
    runs (N :: Ns) s (b :: bs) s'.
End Invocations.

(** ** Generators used in worked instances *)

(** A generator over the reals whose uniform stream is 1/2, 1/4, 1/8, ...
    and whose exponential stream is 0, 1, 2, ... *)
Definition sample_state_real : RandomState R :=
  {| random_sample := fun i => (/ 2 ^ S i)%R;
     standard_exponential := INR;
     pos := 0 |}.

(** A binary64 generator that returns 0.5 for every uniform draw and 1.0 for
    every exponential draw. *)
Definition sample_state_b64 : RandomState B64.t :=
  {| random_sample := fun _ => S754_finite false 4503599627370496 (-53);
     standard_exponential := fun _ => S754_finite false 4503599627370496 (-52);
     pos := 0 |}.

(** ** Draws used by a sequence of invocations *)

(** The number of draws that invocations with the sample counts [Ns] use up. *)
Definition draws_used (Ns : list Z) : nat := list_sum (map Z.to_nat Ns).

Section ExpectedEstimates.
Context {A : Type} `{Scalar A}.
Variable g : nat -> A.
Variable f : A -> A.

(** What [np.sum(f(x))/N] is when [x] holds the [N] values of the stream [g]
    from position [p] on. *)
Definition estimate_at (p : nat) (N : Z) : A :=
  div (np_sum (map f (map g (seq p (Z.to_nat N))))) (of_int N).

(** The estimates of successive invocations with the counts [Ns], the first
    one reading the stream from position [p]. *)
Fixpoint estimates (p : nat) (Ns : list Z) : list A :=
  match Ns with
  | [] => []
  | N :: Ns' => estimate_at p N :: estimates (p + Z.to_nat N) Ns'
  end.
End ExpectedEstimates.

(** ** The integral behind the second cell *)

(** The notebook's text states the integral the second cell estimates:
    [sin] weighted by [exp(-x)], the density of the exponential samples, over
    [0, infinity).  [weighted_antiderivative] is an antiderivative of it. *)
Definition weighted_integrand (x : R) : R := (exp (- x) * Example2.f x)%R.
Definition weighted_antiderivative (x : R) : R :=
  (- (exp (- x) * (sin x + cos x)) / 2)%R.

(** ** Sums in an arithmetic that rounds *)

Section Summation.
Context {A : Type} `{Scalar A}.

(** [summation l v]: [v] is a sum of the values [l] computed with the
    additions of the arithmetic, taken in any order and with any bracketing,
    where any partial sum may start from [0.0].  In binary64 different orders
    give different roundings; numpy's [np.sum] (pairwise, in blocks) and the
    left-to-right [np_sum] are two of them. *)
Inductive summation : list A -> A -> Prop :=
| summation_nil : summation [] zero
| summation_one (x : A) : summation [x] x
| summation_add (l l1 l2 : list A) (v1 v2 : A) :
    summation l1 v1 ->
    summation l2 v2 ->
    Permutation l (l1 ++ l2) ->
    summation l (add v1 v2).
End Summation.

(** The binary64 number nearest to 0.1, and a generator whose every draw is
    that number. *)
Definition tenth : B64.t := S754_finite false 7205759403792794 (-56).

Definition tenth_state : RandomState B64.t :=
  {| random_sample := fun _ => tenth;
     standard_exponential := fun _ => tenth;
     pos := 0 |}.

(** A binary64 number that is neither negative nor NaN: +0.0, a positive
    finite number or +infinity. *)
Definition is_nonneg (x : B64.t) : bool :=
  match x with
  | S754_zero false | S754_finite false _ _ | S754_infinity false => true
  | _ => false
  end.

(** * Properties *)

(** ** Sample counts: [np.logspace] followed by [np.int_] *)

Section LogspaceFacts.
Local Open Scope R_scope.

Lemma pow_lt_mono (x y : R) (n : nat) :
  0 <= x -> x < y -> (0 < n)%nat -> x ^ n < y ^ n.
Proof.
  intros Hx Hxy Hn. induction n as [|n IH]; [lia|].
  destruct n as [|n].
  - simpl. lra.
  - assert (Hr : x ^ S n < y ^ S n) by (apply IH; lia).
    assert (0 <= x ^ S n) by (apply pow_le; lra).
    change (x * x ^ S n < y * y ^ S n). nra.
Qed.

(** If [e = k/d] then [(10 ** e) ^ d = 10 ^ k]. *)
Lemma Rpower_root_pow (e : R) (d k : nat) :
  e * INR d = INR k -> Rpower 10 e ^ d = 10 ^ k.
Proof.
  intros He.
  rewrite <- (Rpower_pow d) by apply exp_pos.
  rewrite Rpower_mult, He. apply Rpower_pow. lra.
Qed.

(** Rational bounds [p/q] on [10 ** (k/d)], decided on integers. *)
Lemma root_lower (e : R) (d k : nat) (p q : Z) :
  (0 < d)%nat -> (0 < q)%Z -> e * INR d = INR k ->
  (p ^ Z.of_nat d <= 10 ^ Z.of_nat k * q ^ Z.of_nat d)%Z ->
  IZR p <= Rpower 10 e * IZR q.
Proof.
  intros Hd Hq He Hle.
  pose proof (Rpower_root_pow e d k He) as Hx.
  apply IZR_le in Hle. rewrite mult_IZR, <- !pow_IZR, <- Hx in Hle.
  rewrite <- Rpow_mult_distr in Hle.
  assert (Hy : 0 <= Rpower 10 e * IZR q).
  { apply Rmult_le_pos; [left; apply exp_pos | apply IZR_le; lia]. }
  destruct (Rle_lt_dec (IZR p) (Rpower 10 e * IZR q)) as [|Hc]; [assumption|].
  apply (pow_lt_mono _ _ d Hy) in Hc; [lra | assumption].
Qed.

Lemma root_upper (e : R) (d k : nat) (p q : Z) :
  (0 < d)%nat -> (0 <= p)%Z -> e * INR d = INR k ->
  (10 ^ Z.of_nat k * q ^ Z.of_nat d < p ^ Z.of_nat d)%Z ->
  Rpower 10 e * IZR q < IZR p.
Proof.
  intros Hd Hp He Hlt.
  pose proof (Rpower_root_pow e d k He) as Hx.
  apply IZR_lt in Hlt. rewrite mult_IZR, <- !pow_IZR, <- Hx in Hlt.
  rewrite <- Rpow_mult_distr in Hlt.
  destruct (Rlt_le_dec (Rpower 10 e * IZR q) (IZR p)) as [|Hc]; [assumption|].
  assert (H0 : 0 <= IZR p) by (apply IZR_le; lia).
  pose proof (pow_incr (IZR p) (Rpower 10 e * IZR q) d (conj H0 Hc)). lra.
Qed.

Lemma int_of_float_between (x : R) (n : Z) :
  (0 <= n)%Z -> IZR n <= x < IZR n + 1 -> int_of_float x = n.
Proof.
  intros Hn [Hlo Hhi]. unfold int_of_float.
  assert (0 <= IZR n) by (apply IZR_le; lia).
  destruct (Rle_dec 0 x) as [_|Hneg]; [|lra].
  symmetry. apply Int_part_spec. lra.
Qed.

Lemma nearest_integer_between (x : R) (n : Z) :
  IZR n - / 2 <= x < IZR n + / 2 -> nearest_integer x = n.
Proof.
  intros [Hlo Hhi]. unfold nearest_integer.
  symmetry. apply Int_part_spec. lra.
Qed.

Lemma int_of_float_pos_spec (x : R) :
  0 <= x -> IZR (int_of_float x) <= x < IZR (int_of_float x) + 1.
Proof.
  intros Hx. unfold int_of_float.
  destruct (Rle_dec 0 x) as [_|Hneg]; [|contradiction].
  destruct (base_Int_part x). lra.
Qed.

Lemma int_of_float_mono (x y : R) :
  0 <= x -> x <= y -> (int_of_float x <= int_of_float y)%Z.
Proof.
  intros Hx Hxy.
  pose proof (int_of_float_pos_spec x Hx) as [Hx1 Hx2].
  pose proof (int_of_float_pos_spec y (Rle_trans _ _ _ Hx Hxy)) as [Hy1 Hy2].
  assert (Hlt : IZR (int_of_float x) < IZR (int_of_float y + 1)).
  { rewrite plus_IZR. lra. }
  apply lt_IZR in Hlt. lia.
Qed.

(** Integer bounds on [10 ** (k/d)] give its integer part. *)
Lemma int_of_float_root (e : R) (d k : nat) (n : Z) :
  (0 < d)%nat -> (0 <= n)%Z -> e * INR d = INR k ->
  (n ^ Z.of_nat d <= 10 ^ Z.of_nat k * 1 ^ Z.of_nat d)%Z ->
  (10 ^ Z.of_nat k * 1 ^ Z.of_nat d < (n + 1) ^ Z.of_nat d)%Z ->
  int_of_float (Rpower 10 e) = n.
Proof.
  intros Hd Hn He Hlo Hhi.
  apply int_of_float_between; [assumption|].
  pose proof (root_lower e d k n 1 Hd Z.lt_0_1 He Hlo).
  pose proof (root_upper e d k (n + 1) 1 Hd ltac:(lia) He Hhi) as Hu.
  rewrite plus_IZR in Hu. lra.
Qed.

(** A tenth power of ten with an integer exponent is its own integer part
    and its own nearest integer. *)
Lemma Rpower_10_nat (n : nat) : Rpower 10 (INR n) = IZR (10 ^ Z.of_nat n).
Proof. rewrite Rpower_pow by lra. apply pow_IZR. Qed.

Lemma Rpower_10_neg (z : Z) : (z < 0)%Z -> 0 < Rpower 10 (IZR z) <= / 10.
Proof.
  intros Hz. split; [apply exp_pos|].
  replace (/ 10) with (Rpower 10 (-1)).
  - apply Rle_Rpower; [lra|]. apply IZR_le. lia.
  - replace (-1) with (- (1)) by lra.
    rewrite Rpower_Ropp, Rpower_1 by lra. reflexivity.
Qed.

Lemma int_of_float_pow10 (z : Z) :
  int_of_float (Rpower 10 (IZR z)) = nearest_integer (Rpower 10 (IZR z)).
Proof.
  destruct (Z_lt_le_dec z 0) as [Hneg|Hpos].
  - pose proof (Rpower_10_neg z Hneg) as [H1 H2].
    rewrite (int_of_float_between _ 0), (nearest_integer_between _ 0);
      [reflexivity | lra | lia | lra].
  - rewrite <- (Z2Nat.id z Hpos), <- INR_IZR_INZ, Rpower_10_nat.
    assert (0 <= 10 ^ Z.of_nat (Z.to_nat z))%Z by (apply Z.pow_nonneg; lia).
    rewrite (int_of_float_between _ (10 ^ Z.of_nat (Z.to_nat z))),
      (nearest_integer_between _ (10 ^ Z.of_nat (Z.to_nat z)));
      [reflexivity | lra | assumption | lra].
Qed.
End LogspaceFacts.

Ltac logspace_entry k :=
  apply (int_of_float_root _ 9 k);
  [ lia | lia
  | rewrite !INR_IZR_INZ; cbn [Z.of_nat Pos.of_succ_nat Pos.succ]; lra
  | apply Z.leb_le; vm_compute; reflexivity
  | apply Z.ltb_lt; vm_compute; reflexivity ].

(** The ten sample counts of both cells. *)
Lemma puntos_eq : puntos = puntos_values.
Proof.
  unfold puntos, np_int_, np_logspace, np_linspace, n_intentos, puntos_values.
  cbn [seq map Nat.sub].
  f_equal; [logspace_entry 9%nat|].
  f_equal; [logspace_entry 13%nat|].
  f_equal; [logspace_entry 17%nat|].
  f_equal; [logspace_entry 21%nat|].
  f_equal; [logspace_entry 25%nat|].
  f_equal; [logspace_entry 29%nat|].
  f_equal; [logspace_entry 33%nat|].
  f_equal; [logspace_entry 37%nat|].
  f_equal; [logspace_entry 41%nat|].
  f_equal. logspace_entry 45%nat.
Qed.

Lemma last_as_nth {X} (l : list X) (d : X) : last l d = nth (length l - 1) l d.
Proof.
  induction l as [|x l IH]; [reflexivity|].
  destruct l as [|y l]; [reflexivity|].
  change (last (x :: y :: l) d) with (last (y :: l) d).
  rewrite IH. cbn [length Nat.sub nth]. now rewrite Nat.sub_0_r.
Qed.

Lemma length_sample_counts (lo hi : R) (T : nat) :
  length (np_int_ (np_logspace lo hi T)) = T.
Proof.
  unfold np_int_, np_logspace, np_linspace.
  now rewrite !length_map, length_seq.
Qed.

Lemma nth_sample_counts (lo hi : R) (T i : nat) :
  (i < T)%nat ->
  nth i (np_int_ (np_logspace lo hi T)) 0%Z =
  int_of_float (Rpower 10 (lo + INR i * ((hi - lo) / INR (T - 1)))).
Proof.
  intros Hi.
  set (g := fun i : nat => (lo + INR i * ((hi - lo) / INR (T - 1)))%R).
  rewrite (nth_indep _ 0%Z (int_of_float (Rpower 10 (g 0%nat))))
    by now rewrite length_sample_counts.
  unfold np_int_, np_logspace, np_linspace. fold g.
  rewrite !map_nth, seq_nth by assumption. reflexivity.
Qed.

Lemma logspace_floor (l : list R) :
  Forall2 (fun n x => (IZR n <= x < IZR n + 1)%R)
    (np_int_ (map (Rpower 10) l)) (map (Rpower 10) l).
Proof.
  induction l as [|e l IH]; constructor; [|exact IH].
  apply int_of_float_pos_spec. left. apply exp_pos.
Qed.



Lemma linspace_between (start stop : R) (num : nat) :
  (start <= stop)%R ->
  Forall (fun e => (start <= e <= stop)%R) (np_linspace start stop num).
Proof.
  intros Hle. unfold np_linspace. apply Forall_map, Forall_forall.
  intros i Hi. apply in_seq in Hi. cbn in Hi.
  destruct (Nat.eq_dec (num - 1) 0) as [Hz|Hnz].
  - assert (i = 0%nat) by lia. subst i. change (INR 0) with 0%R. lra.
  - assert (Hden : (0 < INR (num - 1))%R) by (apply lt_0_INR; lia).
    assert (Hi0 : (0 <= INR i)%R) by apply pos_INR.
    assert (Hi1 : (INR i <= INR (num - 1))%R) by (apply le_INR; lia).
    set (t := (INR i * / INR (num - 1))%R).
    assert (Ht : (0 <= t <= 1)%R).
    { unfold t. split.
      - apply Rmult_le_pos; [exact Hi0 | left; now apply Rinv_0_lt_compat].
      - apply (Rmult_le_reg_r (INR (num - 1))); [exact Hden|].
        rewrite Rmult_assoc, Rinv_l by lra. lra. }
    replace (INR i * ((stop - start) / INR (num - 1)))%R
      with ((stop - start) * t)%R by (unfold t, Rdiv; ring).
    nra.
Qed.

Lemma sample_counts_range (lo hi : R) (T : nat) :
  (lo <= hi)%R ->
  Forall (fun n => (int_of_float (Rpower 10 lo) <= n <= int_of_float (Rpower 10 hi))%Z)
    (np_int_ (np_logspace lo hi T)).
Proof.
  intros Hle. unfold np_int_, np_logspace. apply Forall_map, Forall_map.
  eapply Forall_impl; [|exact (linspace_between lo hi T Hle)].
  intros e [He1 He2]. cbn beta.
  split; (apply int_of_float_mono; [left; apply exp_pos|]);
    apply Rle_Rpower; lra.
Qed.

Lemma int_of_float_pow10_18 : int_of_float (Rpower 10 18) = (10 ^ 18)%Z.
Proof.
  replace 18%R with (INR 18) by (rewrite INR_IZR_INZ; reflexivity).
  rewrite Rpower_10_nat.
  change (10 ^ 18)%Z with (10 ^ Z.of_nat 18)%Z.
  apply int_of_float_between; [apply Z.pow_nonneg; lia|].
  generalize (IZR (10 ^ Z.of_nat 18)). intros r. lra.
Qed.

Lemma sample_counts_single (lo hi : R) :
  np_int_ (np_logspace lo hi 1) = [int_of_float (Rpower 10 lo)].
Proof.
  unfold np_int_, np_logspace, np_linspace. cbn [seq map Nat.sub].
  do 3 f_equal. change (INR 0) with 0%R. lra.
Qed.




(** ** The two estimators *)

Lemma advance_0 {A} (s : RandomState A) : advance s 0 = s.
Proof. destruct s as [u e p]. unfold advance. cbn. now rewrite Nat.add_0_r. Qed.

Section EstimatorFacts.
Context {A : Type} `{Scalar A}.
Variable f : A -> A.

(** With a sample count that is not negative, the uniform estimator reads
    the next [N] uniform draws and divides the sum of [f] over them by [N]. *)
Lemma uniform_estimator_run (N : Z) (s : RandomState A) :
  (0 <= N)%Z ->
  Example1.integral_monte_carlo f (Some N) s =
  Ok (div (np_sum (map f (map (random_sample s) (seq (pos s) (Z.to_nat N)))))
          (of_int N),
      advance s (Z.to_nat N)).
Proof.
  intros HN. unfold Example1.integral_monte_carlo, bind, np_random_random, ret.
  cbn [default_N]. destruct (Z.ltb_spec N 0); [lia | reflexivity].
Qed.

Lemma exponential_estimator_run (N : Z) (s : RandomState A) :
  (0 <= N)%Z ->
  Example2.integral_monte_carlo f (Some N) s =
  Ok (div (np_sum (map f (map (standard_exponential s) (seq (pos s) (Z.to_nat N)))))
          (of_int N),
      advance s (Z.to_nat N)).
Proof.
  intros HN. unfold Example2.integral_monte_carlo, bind, np_random_exponential, ret.
  cbn [default_N]. destruct (Z.ltb_spec N 0); [lia | reflexivity].
Qed.

(** A negative sample count is rejected by the sampler. *)
Lemma uniform_estimator_negative (N : Z) (s : RandomState A) :
  (N < 0)%Z -> Example1.integral_monte_carlo f (Some N) s = Raise ValueError.
Proof.
  intros HN. unfold Example1.integral_monte_carlo, bind, np_random_random.
  cbn [default_N]. destruct (Z.ltb_spec N 0); [reflexivity | lia].
Qed.

Lemma exponential_estimator_negative (N : Z) (s : RandomState A) :
  (N < 0)%Z -> Example2.integral_monte_carlo f (Some N) s = Raise ValueError.
Proof.
  intros HN. unfold Example2.integral_monte_carlo, bind, np_random_exponential.
  cbn [default_N]. destruct (Z.ltb_spec N 0); [reflexivity | lia].
Qed.
End EstimatorFacts.

(** *** The estimate is a sum of the values divided by [N] *)

Lemma fold_left_Rplus (l : list R) (acc : R) :
  fold_left Rplus l acc = (acc + Rsum l)%R.
Proof.
  revert acc. induction l as [|x l IH]; intros acc; cbn.
  - lra.
  - rewrite IH. unfold Rsum. lra.
Qed.

Lemma np_sum_real (l : list R) : np_sum l = Rsum l.
Proof. unfold np_sum. cbn. rewrite fold_left_Rplus. lra. Qed.

Lemma mean_of_draws (f : R -> R) (g : nat -> R) (p : nat) (N : Z) :
  (0 < N)%Z ->
  let x := map g (seq p (Z.to_nat N)) in
  length x = Z.to_nat N /\
  (div (np_sum (map f x)) (of_int N) = 1 / IZR N * Rsum (map f x))%R /\
  (1 / IZR N * Rsum (map f x))%R = arithmetic_mean (map f x).
Proof.
  intros HN x.
  assert (Hlen : length x = Z.to_nat N).
  { unfold x. now rewrite length_map, length_seq. }
  assert (HN0 : IZR N <> 0%R).
  { apply not_0_IZR. lia. }
  split; [exact Hlen|]. split.
  - rewrite np_sum_real. cbn. field. exact HN0.
  - unfold arithmetic_mean. rewrite length_map, Hlen, INR_IZR_INZ, Z2Nat.id by lia.
    field. exact HN0.
Qed.

Section SummationFacts.
Context {A : Type} `{Scalar A}.

Lemma summation_fold_left (l l0 : list A) (acc : A) :
  summation l0 acc -> summation (l0 ++ l) (fold_left add l acc).
Proof.
  revert l0 acc. induction l as [|x l IH]; intros l0 acc Hacc.
  - now rewrite app_nil_r.
  - cbn [fold_left].
    replace (l0 ++ x :: l) with ((l0 ++ [x]) ++ l) by now rewrite <- app_assoc.
    apply IH. apply (summation_add (l0 ++ [x]) l0 [x]);
      [exact Hacc | constructor | reflexivity].
Qed.

(** The sum [np_sum] computes is one of the sums of its argument. *)
Lemma np_sum_summation (l : list A) : summation l (np_sum l).
Proof. exact (summation_fold_left l [] zero summation_nil). Qed.
End SummationFacts.

Lemma Rsum_app (l1 l2 : list R) : Rsum (l1 ++ l2) = (Rsum l1 + Rsum l2)%R.
Proof.
  induction l1 as [|y l1 IH]; cbn.
  - fold (Rsum l2). lra.
  - fold (Rsum (l1 ++ l2)) (Rsum l1). rewrite IH. lra.
Qed.

Lemma Rsum_permutation (l l' : list R) : Permutation l l' -> Rsum l = Rsum l'.
Proof.
  induction 1 as [|x l l' _ IH|x y l|l l' l'' _ IH1 _ IH2]; cbn.
  - reflexivity.
  - fold (Rsum l) (Rsum l'). now rewrite IH.
  - fold (Rsum l). lra.
  - congruence.
Qed.

(** Over the reals the order of the additions does not matter: every
    summation of [l] is its sum. *)
Lemma summation_real (l : list R) (v : R) : summation l v -> v = Rsum l.
Proof.
  induction 1 as [|x|l l1 l2 v1 v2 _ IH1 _ IH2 Hperm].
  - reflexivity.
  - cbn. lra.
  - rewrite (Rsum_permutation l (l1 ++ l2) Hperm), Rsum_app, IH1, IH2.
    reflexivity.
Qed.

(** C1, as the claim states it, fails in binary64: with three samples
    equal to 0.1 and the identity integrand the three values [f(x_i)] are all
    0.1, so their arithmetic mean is 0.1, and the estimator returns the next
    larger binary64 number, 0.10000000000000002. *)
Lemma uniform_estimate_exceeds_mean :
  map (fun x : B64.t => x) (map (random_sample tenth_state) (seq 0 3))
    = [tenth; tenth; tenth] /\
  Example1.integral_monte_carlo (fun x : B64.t => x) (Some 3%Z) tenth_state
    = Ok (S754_finite false 7205759403792795 (-56), advance tenth_state 3) /\
  SFltb tenth (S754_finite false 7205759403792795 (-56)) = true.
Proof. repeat split; reflexivity. Qed.

(** C1 (amended): in every arithmetic, binary64 included, the uniform
    estimator called with [0 < N < 2^63] draws the next [N] uniform samples
    [x_1..x_N] and returns [v / N], where [v] is a sum of [f x_1 .. f x_N]
    computed with the additions of that arithmetic and the division is that
    of the arithmetic.  In exact arithmetic every such sum is
    [f x_1 + ... + f x_N], and the value returned is [(1/N)] times it, the
    arithmetic mean; in binary64 each addition and the division round. *)
Theorem uniform_estimate_is_rounded_mean :
  (forall (A : Type) (HA : Scalar A) (f : A -> A) (N : Z) (s : RandomState A),
     (0 < N < 2 ^ 63)%Z ->
     let x := map (random_sample s) (seq (pos s) (Z.to_nat N)) in
     length x = Z.to_nat N /\
     exists v : A,
       summation (map f x) v /\
       Example1.integral_monte_carlo f (Some N) s
         = Ok (div v (of_int N), advance s (Z.to_nat N))) /\
  (forall (l : list R) (v : R), summation l v -> v = Rsum l) /\
  (forall (f : R -> R) (N : Z) (s : RandomState R),
     (0 < N < 2 ^ 63)%Z ->
     let x := map (random_sample s) (seq (pos s) (Z.to_nat N)) in
     Example1.integral_monte_carlo f (Some N) s
       = Ok ((1 / IZR N * Rsum (map f x))%R, advance s (Z.to_nat N)) /\
     (1 / IZR N * Rsum (map f x))%R = arithmetic_mean (map f x)).
Proof.
  split; [|split].
  - intros A HA f N s HN x. split.
    + unfold x. now rewrite length_map, length_seq.
    + exists (np_sum (map f x)). split; [apply np_sum_summation|].
      apply uniform_estimator_run. lia.
  - exact summation_real.
  - intros f N s HN x.
    destruct (mean_of_draws f (random_sample s) (pos s) N (proj1 HN))
      as (_ & Hq & Hm).
    split; [|exact Hm].
    rewrite uniform_estimator_run by lia. subst x. now rewrite Hq.
Qed.

Lemma uniform_estimate_is_rounded_mean_witness :
  (0 < 3 < 2 ^ 63)%Z /\
  exists v : B64.t,
    summation (map (fun x : B64.t => x)
                 (map (random_sample tenth_state) (seq 0 3))) v /\
    Example1.integral_monte_carlo (fun x : B64.t => x) (Some 3%Z) tenth_state
      = Ok (div v (of_int 3%Z), advance tenth_state 3).
Proof.
  assert (HN : (0 < 3 < 2 ^ 63)%Z) by lia.
  split; [exact HN|].
  exact (proj2 (proj1 uniform_estimate_is_rounded_mean B64.t _
                  (fun x => x) 3%Z tenth_state HN)).
Defined.

(** C2, as the claim states it, fails in binary64 in the same way: with
    three exponential samples equal to 0.1 and the identity integrand the
    plain sample mean is 0.1 and the estimator returns 0.10000000000000002. *)
Lemma exponential_estimate_exceeds_mean :
  map (fun x : B64.t => x) (map (standard_exponential tenth_state) (seq 0 3))
    = [tenth; tenth; tenth] /\
  Example2.integral_monte_carlo (fun x : B64.t => x) (Some 3%Z) tenth_state
    = Ok (S754_finite false 7205759403792795 (-56), advance tenth_state 3) /\
  SFltb tenth (S754_finite false 7205759403792795 (-56)) = true.
Proof. repeat split; reflexivity. Qed.

(** C2 (amended): in every arithmetic, binary64 included, the second
    estimator called with [0 < N < 2^63] draws the next [N] exponential
    samples and returns [v / N], where [v] is a sum of [f x_1 .. f x_N]
    computed with the additions of that arithmetic: [f] alone is applied to
    each sample, with no weight.  In exact arithmetic the value returned is
    the plain sample mean [(1/N) * (f x_1 + ... + f x_N)]; in binary64 each
    addition and the division round. *)
Theorem exponential_estimate_is_rounded_mean :
  (forall (A : Type) (HA : Scalar A) (f : A -> A) (N : Z) (s : RandomState A),
     (0 < N < 2 ^ 63)%Z ->
     let x := map (standard_exponential s) (seq (pos s) (Z.to_nat N)) in
     length x = Z.to_nat N /\
     exists v : A,
       summation (map f x) v /\
       Example2.integral_monte_carlo f (Some N) s
         = Ok (div v (of_int N), advance s (Z.to_nat N))) /\
  (forall (l : list R) (v : R), summation l v -> v = Rsum l) /\
  (forall (f : R -> R) (N : Z) (s : RandomState R),
     (0 < N < 2 ^ 63)%Z ->
     let x := map (standard_exponential s) (seq (pos s) (Z.to_nat N)) in
     Example2.integral_monte_carlo f (Some N) s
       = Ok ((1 / IZR N * Rsum (map f x))%R, advance s (Z.to_nat N)) /\
     (1 / IZR N * Rsum (map f x))%R = arithmetic_mean (map f x)).
Proof.
  split; [|split].
  - intros A HA f N s HN x. split.
    + unfold x. now rewrite length_map, length_seq.
    + exists (np_sum (map f x)). split; [apply np_sum_summation|].
      apply exponential_estimator_run. lia.
  - exact summation_real.
  - intros f N s HN x.
    destruct (mean_of_draws f (standard_exponential s) (pos s) N (proj1 HN))
      as (_ & Hq & Hm).
    split; [|exact Hm].
    rewrite exponential_estimator_run by lia. subst x. now rewrite Hq.
Qed.

Lemma exponential_estimate_is_rounded_mean_witness :
  (0 < 3 < 2 ^ 63)%Z /\
  exists v : B64.t,
    summation (map (fun x : B64.t => x)
                 (map (standard_exponential tenth_state) (seq 0 3))) v /\
    Example2.integral_monte_carlo (fun x : B64.t => x) (Some 3%Z) tenth_state
      = Ok (div v (of_int 3%Z), advance tenth_state 3).
Proof.
  assert (HN : (0 < 3 < 2 ^ 63)%Z) by lia.
  split; [exact HN|].
  exact (proj2 (proj1 exponential_estimate_is_rounded_mean B64.t _
                  (fun x => x) 3%Z tenth_state HN)).
Defined.

(** *** binary64: sample counts that are not positive *)

(** Two runs of the model in binary64: four uniform draws of 0.5 average to
    0.5; with the reference 1.0 and the counts 1, 2, 3 the loop records the
    relative error 0.5 three times and leaves the generator at position 6. *)
Example uniform_estimator_b64 :
  Example1.integral_monte_carlo (fun x : B64.t => x) (Some 4%Z) sample_state_b64
  = Ok (S754_finite false 4503599627370496 (-53), advance sample_state_b64 4).
Proof. reflexivity. Qed.

Example diferencias_b64 :
  Example1.diferencias (fun x : B64.t => x) one 3 [1; 2; 3]%Z sample_state_b64
  = Ok (repeat (S754_finite false 4503599627370496 (-53)) 3,
        advance sample_state_b64 6).
Proof. reflexivity. Qed.

(** C4, as the claim states it, fails at [N = 0]: the estimator raises
    nothing and returns NaN, the value of [0.0/0]. *)
Lemma zero_sample_count_returns_nan :
  Example1.integral_monte_carlo (fun x : B64.t => x) (Some 0%Z) sample_state_b64
    = Ok (B64.nan, sample_state_b64) /\
  forall e : exn,
    Example1.integral_monte_carlo (fun x : B64.t => x) (Some 0%Z) sample_state_b64
      <> Raise e.
Proof.
  split; [reflexivity|]. intros e. discriminate.
Qed.

(** C4 (amended): in binary64, for every [N <= 0] both estimators behave
    as follows: a negative [N] makes the sampler raise [ValueError]; [N = 0]
    raises nothing and returns NaN, with the generator left as it was. *)
Theorem nonpositive_sample_count
    (f : B64.t -> B64.t) (N : Z) (s : RandomState B64.t) :
  (N <= 0)%Z ->
  Example1.integral_monte_carlo f (Some N) s =
    (if (N =? 0)%Z then Ok (B64.nan, s) else Raise ValueError) /\
  Example2.integral_monte_carlo f (Some N) s =
    (if (N =? 0)%Z then Ok (B64.nan, s) else Raise ValueError).
Proof.
  intros HN. destruct (Z.eqb_spec N 0) as [->|Hne].
  - rewrite uniform_estimator_run, exponential_estimator_run by lia.
    cbn. rewrite advance_0. split; reflexivity.
  - rewrite uniform_estimator_negative, exponential_estimator_negative by lia.
    split; reflexivity.
Qed.

Lemma nonpositive_sample_count_witness :
  (-3 <= 0)%Z /\
  Example1.integral_monte_carlo (fun x : B64.t => x) (Some (-3)%Z) sample_state_b64
    = Raise ValueError.
Proof.
  split; [lia|].
  exact (proj1 (nonpositive_sample_count
                  (fun x => x) (-3)%Z sample_state_b64 ltac:(lia))).
Defined.

(** *** The default sample count *)

(** C10: in both cells and for every arithmetic, calling the estimator
    without a sample count is calling it with [N = 100], and the call returns
    an estimate: it raises nothing and uses up 100 draws. *)
Theorem default_sample_count_is_100 :
  forall (A : Type) (HA : Scalar A) (f : A -> A),
    Example1.integral_monte_carlo f None = Example1.integral_monte_carlo f (Some 100%Z) /\
    Example2.integral_monte_carlo f None = Example2.integral_monte_carlo f (Some 100%Z) /\
    forall s : RandomState A,
      (exists b, Example1.integral_monte_carlo f None s = Ok (b, advance s 100)) /\
      (exists b, Example2.integral_monte_carlo f None s = Ok (b, advance s 100)).
Proof.
  intros A HA f. split; [reflexivity|]. split; [reflexivity|].
  intros s. split; eexists.
  - change (Example1.integral_monte_carlo f None)
      with (Example1.integral_monte_carlo f (Some 100%Z)).
    now rewrite uniform_estimator_run by lia.
  - change (Example2.integral_monte_carlo f None)
      with (Example2.integral_monte_carlo f (Some 100%Z)).
    now rewrite exponential_estimator_run by lia.
Qed.

(** ** The convergence loop *)

Section SweepFacts.
Context {A : Type} `{Scalar A}.
Variable a : A.
Variable est : option Z -> M A A.

Lemma runs_length Ns s bs s' : runs est Ns s bs s' -> length bs = length Ns.
Proof. induction 1; cbn; congruence. Qed.

Lemma runs_total (Ns : list Z) :
  (forall N s, (0 <= N)%Z -> exists b s1, est (Some N) s = Ok (b, s1)) ->
  Forall (fun N => (0 <= N)%Z) Ns ->
  forall s, exists bs s', runs est Ns s bs s'.
Proof.
  intros Hest HNs. induction HNs as [|N Ns HN _ IH]; intros s.
  - exists [], s. constructor.
  - destruct (Hest N s HN) as (b & s1 & Hb).
    destruct (IH s1) as (bs & s' & Hbs).
    exists (b :: bs), s'. econstructor; eassumption.
Qed.

Lemma nth_error_middle {X} (l1 l2 : list X) (x : X) :
  nth_error (l1 ++ x :: l2) (length l1) = Some x.
Proof. induction l1 as [|y l1 IH]; [reflexivity | exact IH]. Qed.

Lemma setitem_list_middle {X} (l1 l2 : list X) (x v : X) :
  setitem_list (l1 ++ x :: l2) (length l1) v = Some (l1 ++ v :: l2).
Proof.
  induction l1 as [|y l1 IH]; [reflexivity|].
  cbn. now rewrite IH.
Qed.

(** The loop invariant: [done] holds the errors already stored, [rest] the
    entries of [np.ones] not yet overwritten. *)
Lemma for_range_sweep (Ns : list Z) (s : RandomState A) (bs : list A)
    (s' : RandomState A) :
  runs est Ns s bs s' ->
  forall (Ns0 : list Z) (done rest : list A),
    length done = length Ns0 ->
    length rest = length Ns ->
    for_range (length Ns0) (length Ns) (sweep_body a est (Ns0 ++ Ns))
      (done ++ rest) s
    = Ok (done ++ map (relative_error a) bs, s').
Proof.
  induction 1 as [s | N Ns s s1 s' b bs Hb Hruns IH];
    intros Ns0 done rest Hdone Hrest.
  - destruct rest; [reflexivity | discriminate].
  - destruct rest as [|r rest]; [discriminate|].
    cbn [length for_range]. unfold bind at 1.
    unfold sweep_body at 1. unfold bind, getitem.
    rewrite nth_error_middle. unfold ret at 1. rewrite Hb.
    unfold setitem. rewrite <- Hdone, setitem_list_middle. unfold ret at 1.
    specialize (IH (Ns0 ++ [N]) (done ++ [relative_error a b]) rest).
    rewrite !last_length, <- !app_assoc in IH. cbn [app] in IH.
    rewrite <- Hdone in IH. apply IH; [reflexivity|].
    cbn in Hrest. congruence.
Qed.

Lemma convergence_sweep_runs (n : nat) (Ns : list Z) (s : RandomState A)
    (bs : list A) (s' : RandomState A) :
  length Ns = n ->
  runs est Ns s bs s' ->
  convergence_sweep a est n Ns s = Ok (map (relative_error a) bs, s').
Proof.
  intros Hn Hruns. unfold convergence_sweep. subst n.
  apply (for_range_sweep Ns s bs s' Hruns [] [] (np_ones (length Ns)));
    [reflexivity|].
  unfold np_ones. apply repeat_length.
Qed.
End SweepFacts.

(** Both instances of the arithmetic satisfy the law. *)
#[global] Instance ScalarLaws_real : ScalarLaws R.
Proof.
  constructor. intros x y. cbn. unfold Rdiv.
  now rewrite Rabs_mult, Rabs_inv.
Qed.

Lemma SFabs_binary_round_aux (sx : bool) (mx ex : Z) (lx : location) :
  SFabs (binary_round_aux B64.prec B64.emax sx mx ex lx)
  = binary_round_aux B64.prec B64.emax false mx ex lx.
Proof.
  unfold binary_round_aux.
  destruct (shr_fexp B64.prec B64.emax mx ex lx) as [mrs e'].
  destruct (shr_fexp B64.prec B64.emax _ e' loc_Exact) as [mrs' e''].
  destruct (shr_m mrs') as [|m|m]; try reflexivity.
  destruct (Z.leb e'' _); reflexivity.
Qed.

#[global] Instance ScalarLaws_binary64 : ScalarLaws B64.t.
Proof.
  constructor. intros x y. cbn.
  destruct x as [sx|sx| |sx mx ex], y as [sy|sy| |sy my ey]; try reflexivity.
  cbn [SFdiv SFabs].
  destruct (SFdiv_core_binary B64.prec B64.emax (Z.pos mx) ex (Z.pos my) ey)
    as [[mz ez] lz].
  apply SFabs_binary_round_aux.
Qed.

Section SweepOfCells.
Context {A : Type} `{ScalarLaws A}.
Variables (f : A -> A) (a : A).

Lemma relative_error_quotient (b : A) :
  relative_error a b = div (absolute (sub a b)) (absolute a).
Proof. apply absolute_div. Qed.

Lemma sweep_of_estimator (est : option Z -> M A A) (T : nat) (Ns : list Z)
    (s : RandomState A) :
  (forall N s, (0 <= N)%Z -> exists b s1, est (Some N) s = Ok (b, s1)) ->
  length Ns = T ->
  Forall (fun N => (0 <= N)%Z) Ns ->
  exists (bs : list A) (s' : RandomState A),
    runs est Ns s bs s' /\
    convergence_sweep a est T Ns s
      = Ok (map (fun b => div (absolute (sub a b)) (absolute a)) bs, s') /\
    length bs = T.
Proof.
  intros Hest HT HNs.
  destruct (runs_total est Ns Hest HNs s) as (bs & s' & Hruns).
  exists bs, s'. split; [exact Hruns|]. split.
  - rewrite (convergence_sweep_runs a est T Ns s bs s' HT Hruns).
    do 2 f_equal. apply map_ext. exact relative_error_quotient.
  - rewrite (runs_length est Ns s bs s' Hruns). exact HT.
Qed.
End SweepOfCells.

(** C6: for [T] sample counts, none negative, the loop of either cell
    ends normally with an array of exactly [T] values; the estimator is
    invoked once per sample count, in index order, each invocation continuing
    from the generator state left by the previous one; the value recorded at
    index [i] is [|a - b_i| / |a|] for the reference [a] and the estimate
    [b_i] of the [i]-th invocation.  This holds in binary64 and over the
    reals. *)
Theorem sweep_records_relative_errors
    (A : Type) (HA : Scalar A) (HL : ScalarLaws A)
    (f : A -> A) (a : A) (T : nat) (Ns : list Z) (s : RandomState A) :
  length Ns = T ->
  Forall (fun N => (0 <= N)%Z) Ns ->
  (exists (bs : list A) (s' : RandomState A),
     runs (Example1.integral_monte_carlo f) Ns s bs s' /\
     Example1.diferencias f a T Ns s
       = Ok (map (fun b => div (absolute (sub a b)) (absolute a)) bs, s') /\
     length bs = T) /\
  (exists (bs : list A) (s' : RandomState A),
     runs (Example2.integral_monte_carlo f) Ns s bs s' /\
     Example2.diferencias f a T Ns s
       = Ok (map (fun b => div (absolute (sub a b)) (absolute a)) bs, s') /\
     length bs = T).
Proof.
  intros HT HNs. split.
  - apply sweep_of_estimator; [|exact HT|exact HNs].
    intros N s0 HN. eexists _, _. now apply uniform_estimator_run.
  - apply sweep_of_estimator; [|exact HT|exact HNs].
    intros N s0 HN. eexists _, _. now apply exponential_estimator_run.
Qed.

(** The statement above at the notebook's own sample counts, in binary64. *)
Lemma sweep_records_relative_errors_witness :
  length puntos_values = n_intentos /\
  Forall (fun N => (0 <= N)%Z) puntos_values /\
  exists (bs : list B64.t) (s' : RandomState B64.t),
    Example1.diferencias (fun x => x) one n_intentos puntos_values sample_state_b64
      = Ok (map (fun b => div (absolute (sub one b)) (absolute one)) bs, s') /\
    length bs = n_intentos.
Proof.
  assert (Hpos : Forall (fun N => (0 <= N)%Z) puntos_values).
  { unfold puntos_values. repeat constructor; lia. }
  split; [reflexivity|]. split; [exact Hpos|].
  destruct (sweep_records_relative_errors B64.t _ _ (fun x => x) one
              n_intentos puntos_values sample_state_b64 eq_refl Hpos)
    as [(bs & s' & _ & Hd & Hlen) _].
  exists bs, s'. split; assumption.
Defined.

(** *** binary64: a reference value that is exactly zero *)

Lemma relative_error_zero_reference (sgn : bool) (b : B64.t) :
  relative_error (S754_zero sgn) b =
  match b with
  | S754_zero _ | S754_nan => B64.nan
  | S754_infinity _ | S754_finite _ _ _ => B64.pinf
  end.
Proof. destruct b as [sb|sb| |sb mb eb], sgn; try destruct sb; reflexivity. Qed.

Lemma relative_error_zero_reference_not_finite (sgn : bool) (b : B64.t) :
  B64.is_finite (relative_error (S754_zero sgn) b) = false.
Proof. rewrite relative_error_zero_reference. destruct b; reflexivity. Qed.

Lemma sweep_zero_reference (est : option Z -> M B64.t B64.t) (sgn : bool)
    (T : nat) (Ns : list Z) (s : RandomState B64.t) :
  (forall N s, (0 <= N)%Z -> exists b s1, est (Some N) s = Ok (b, s1)) ->
  length Ns = T ->
  Forall (fun N => (0 <= N)%Z) Ns ->
  exists (d : list B64.t) (s' : RandomState B64.t),
    convergence_sweep (S754_zero sgn) est T Ns s = Ok (d, s') /\
    length d = T /\
    Forall (fun e => B64.is_finite e = false) d.
Proof.
  intros Hest HT HNs.
  destruct (runs_total est Ns Hest HNs s) as (bs & s' & Hruns).
  exists (map (relative_error (S754_zero sgn)) bs), s'.
  split; [now apply convergence_sweep_runs|]. split.
  - rewrite length_map. transitivity (length Ns); [|exact HT].
    exact (runs_length est Ns s bs s' Hruns).
  - apply Forall_map, Forall_forall. intros b _.
    apply relative_error_zero_reference_not_finite.
Qed.

(** C8, as the claim states it, fails: with the reference 0.0, one sample
    count [N = 1] and the estimate 0.5, the loop raises nothing and records
    +infinity, not the absolute error 0.5. *)
Lemma zero_reference_records_infinity :
  Example1.diferencias (fun x : B64.t => x) B64.pzero 1 [1%Z] sample_state_b64
  = Ok ([B64.pinf], advance sample_state_b64 1).
Proof. reflexivity. Qed.

(** C8 (amended): in binary64, when the reference value is a zero (of
    either sign), [np.abs((a-b)/a)] is NaN if the estimate [b] is a zero or
    NaN and +infinity otherwise; the loop of either cell then ends normally
    and every one of the [T] values it records is NaN or an infinity: there
    is no failure and no absolute error. *)
Theorem zero_reference_error_not_finite (sgn : bool) :
  (forall b : B64.t,
     relative_error (S754_zero sgn) b =
     match b with
     | S754_zero _ | S754_nan => B64.nan
     | S754_infinity _ | S754_finite _ _ _ => B64.pinf
     end) /\
  (forall (f : B64.t -> B64.t) (T : nat) (Ns : list Z) (s : RandomState B64.t),
     length Ns = T ->
     Forall (fun N => (0 <= N)%Z) Ns ->
     (exists (d : list B64.t) (s' : RandomState B64.t),
        Example1.diferencias f (S754_zero sgn) T Ns s = Ok (d, s') /\
        length d = T /\
        Forall (fun e => B64.is_finite e = false) d) /\
     (exists (d : list B64.t) (s' : RandomState B64.t),
        Example2.diferencias f (S754_zero sgn) T Ns s = Ok (d, s') /\
        length d = T /\
        Forall (fun e => B64.is_finite e = false) d)).
Proof.
  split; [apply relative_error_zero_reference|].
  intros f T Ns s HT HNs. split.
  - apply sweep_zero_reference; [|exact HT|exact HNs].
    intros N s0 HN. eexists _, _. now apply uniform_estimator_run.
  - apply sweep_zero_reference; [|exact HT|exact HNs].
    intros N s0 HN. eexists _, _. now apply exponential_estimator_run.
Qed.

(** The statement above at the notebook's own sample counts. *)
Lemma zero_reference_error_not_finite_witness :
  length puntos_values = n_intentos /\
  Forall (fun N => (0 <= N)%Z) puntos_values /\
  exists (d : list B64.t) (s' : RandomState B64.t),
    Example1.diferencias (fun x => x) B64.pzero n_intentos puntos_values
      sample_state_b64 = Ok (d, s') /\
    length d = n_intentos /\
    Forall (fun e => B64.is_finite e = false) d.
Proof.
  assert (Hpos : Forall (fun N => (0 <= N)%Z) puntos_values).
  { unfold puntos_values. repeat constructor; lia. }
  split; [reflexivity|]. split; [exact Hpos|].
  exact (proj1 (proj2 (zero_reference_error_not_finite false)
                  (fun x => x) n_intentos puntos_values sample_state_b64
                  eq_refl Hpos)).
Defined.

(** * Further properties of the notebook's code *)

(** ** Draws used by the loop *)

Lemma advance_advance {A} (s : RandomState A) (n m : nat) :
  advance (advance s n) m = advance s (n + m).
Proof. unfold advance. cbn. now rewrite Nat.add_assoc. Qed.

Lemma draws_used_cons (N : Z) (Ns : list Z) :
  draws_used (N :: Ns) = Z.to_nat N + draws_used Ns.
Proof. reflexivity. Qed.

Section FreshDraws.
Context {A : Type} `{Scalar A}.
Variable f : A -> A.

Lemma length_estimates (g : nat -> A) (Ns : list Z) (p : nat) :
  length (estimates g f p Ns) = length Ns.
Proof. revert p. induction Ns as [|N Ns IH]; intros p; cbn; [reflexivity | now rewrite IH]. Qed.

Lemma nth_estimates (g : nat -> A) (Ns : list Z) (p i : nat) (d : A) :
  i < length Ns ->
  nth i (estimates g f p Ns) d =
  estimate_at g f (p + draws_used (firstn i Ns)) (nth i Ns 0%Z).
Proof.
  revert p i. induction Ns as [|N Ns IH]; intros p i Hi; [cbn in Hi; lia|].
  destruct i as [|i].
  - cbn. now rewrite Nat.add_0_r.
  - cbn in Hi. cbn [estimates nth firstn]. rewrite IH by lia.
    now rewrite draws_used_cons, Nat.add_assoc.
Qed.

Lemma runs_uniform (Ns : list Z) :
  Forall (fun N => (0 <= N)%Z) Ns ->
  forall s : RandomState A,
    runs (Example1.integral_monte_carlo f) Ns s
      (estimates (random_sample s) f (pos s) Ns) (advance s (draws_used Ns)).
Proof.
  induction 1 as [|N Ns HN _ IH]; intros s.
  - cbn. rewrite advance_0. constructor.
  - cbn [estimates]. econstructor.
    + now apply uniform_estimator_run.
    + rewrite draws_used_cons, <- advance_advance.
      exact (IH (advance s (Z.to_nat N))).
Qed.

Lemma runs_exponential (Ns : list Z) :
  Forall (fun N => (0 <= N)%Z) Ns ->
  forall s : RandomState A,
    runs (Example2.integral_monte_carlo f) Ns s
      (estimates (standard_exponential s) f (pos s) Ns) (advance s (draws_used Ns)).
Proof.
  induction 1 as [|N Ns HN _ IH]; intros s.
  - cbn. rewrite advance_0. constructor.
  - cbn [estimates]. econstructor.
    + now apply exponential_estimator_run.
    + rewrite draws_used_cons, <- advance_advance.
      exact (IH (advance s (Z.to_nat N))).
Qed.

Lemma sweep_of_runs (a : A) (est : option Z -> M A A) (g : nat -> A)
    (T : nat) (Ns : list Z) (s s' : RandomState A) :
  length Ns = T ->
  runs est Ns s (estimates g f (pos s) Ns) s' ->
  convergence_sweep a est T Ns s
    = Ok (map (relative_error a) (estimates g f (pos s) Ns), s') /\
  forall i, i < T ->
    nth i (map (relative_error a) (estimates g f (pos s) Ns)) zero =
    relative_error a
      (estimate_at g f (pos s + draws_used (firstn i Ns)) (nth i Ns 0%Z)).
Proof.
  intros HT Hruns. split.
  - now apply convergence_sweep_runs.
  - intros i Hi.
    rewrite (nth_indep _ zero (relative_error a zero))
      by now rewrite length_map, length_estimates, HT.
    rewrite map_nth. f_equal. apply nth_estimates. now rewrite HT.
Qed.
End FreshDraws.

(** X1: for [T] sample counts, none negative, the loop of either cell uses
    up exactly [draws_used Ns] draws, the sum of the counts, and no draw
    twice: the value recorded at index [i] is the relative error of the
    estimate computed from the [N_i] draws that follow the draws of the
    earlier iterations in the generator's stream. *)
Theorem sweep_uses_fresh_draws
    (A : Type) (HA : Scalar A) (f : A -> A) (a : A) (T : nat) (Ns : list Z)
    (s : RandomState A) :
  length Ns = T ->
  Forall (fun N => (0 <= N)%Z) Ns ->
  (exists d : list A,
     Example1.diferencias f a T Ns s = Ok (d, advance s (draws_used Ns)) /\
     length d = T /\
     forall i, i < T ->
       nth i d zero =
       relative_error a
         (estimate_at (random_sample s) f
            (pos s + draws_used (firstn i Ns)) (nth i Ns 0%Z))) /\
  (exists d : list A,
     Example2.diferencias f a T Ns s = Ok (d, advance s (draws_used Ns)) /\
     length d = T /\
     forall i, i < T ->
       nth i d zero =
       relative_error a
         (estimate_at (standard_exponential s) f
            (pos s + draws_used (firstn i Ns)) (nth i Ns 0%Z))).
Proof.
  intros HT HNs. split.
  - destruct (sweep_of_runs f a (Example1.integral_monte_carlo f)
                (random_sample s) T Ns s _ HT (runs_uniform f Ns HNs s))
      as [Hd Hnth].
    eexists. split; [exact Hd|]. split; [|exact Hnth].
    now rewrite length_map, length_estimates.
  - destruct (sweep_of_runs f a (Example2.integral_monte_carlo f)
                (standard_exponential s) T Ns s _ HT (runs_exponential f Ns HNs s))
      as [Hd Hnth].
    eexists. split; [exact Hd|]. split; [|exact Hnth].
    now rewrite length_map, length_estimates.
Qed.

Lemma sweep_uses_fresh_draws_witness :
  length [1; 2; 3]%Z = 3 /\
  Forall (fun N => (0 <= N)%Z) [1; 2; 3]%Z /\
  exists d : list B64.t,
    Example1.diferencias (fun x => x) one 3 [1; 2; 3]%Z sample_state_b64
      = Ok (d, advance sample_state_b64 6).
Proof.
  assert (Hpos : Forall (fun N => (0 <= N)%Z) [1; 2; 3]%Z).
  { repeat constructor; lia. }
  split; [reflexivity|]. split; [exact Hpos|].
  destruct (sweep_uses_fresh_draws B64.t _ (fun x => x) one 3
              [1; 2; 3]%Z sample_state_b64 eq_refl Hpos)
    as [(d & Hd & _) _].
  exists d. exact Hd.
Defined.

(** ** The range of the counts of [np.logspace] *)

(** X2: for exponents [0 <= lo <= hi <= 18] and any number of points [T],
    every count of [np.int_(np.logspace(lo,hi,T))] is at least 1 and at most
    [10^18]: no count is zero or negative, so the estimator is never asked
    for an empty sample, and every count fits a signed 64-bit integer. *)
Theorem sample_counts_positive_in_range (lo hi : R) (T : nat) :
  (0 <= lo)%R -> (lo <= hi)%R -> (hi <= 18)%R ->
  Forall (fun n => (1 <= n <= 10 ^ 18)%Z) (np_int_ (np_logspace lo hi T)).
Proof.
  intros Hlo Hle Hhi.
  eapply Forall_impl; [|exact (sample_counts_range lo hi T Hle)].
  intros n [Hn1 Hn2]. cbn beta in Hn1, Hn2.
  assert (H1 : (int_of_float 1 <= int_of_float (Rpower 10 lo))%Z).
  { apply int_of_float_mono; [lra|].
    rewrite <- (Rpower_O 10) by lra. apply Rle_Rpower; lra. }
  rewrite (int_of_float_between 1 1) in H1 by (try lia; lra).
  assert (H2 : (int_of_float (Rpower 10 hi) <= int_of_float (Rpower 10 18))%Z).
  { apply int_of_float_mono; [left; apply exp_pos|]. apply Rle_Rpower; lra. }
  rewrite int_of_float_pow10_18 in H2. lia.
Qed.

Lemma sample_counts_positive_in_range_witness :
  (0 <= 1)%R /\ (1 <= 5)%R /\ (5 <= 18)%R /\
  Forall (fun n => (1 <= n <= 10 ^ 18)%Z) puntos.
Proof.
  assert (H0 : (0 <= 1)%R) by lra.
  assert (H1 : (1 <= 5)%R) by lra.
  assert (H2 : (5 <= 18)%R) by lra.
  split; [exact H0|]. split; [exact H1|]. split; [exact H2|].
  exact (sample_counts_positive_in_range 1 5 n_intentos H0 H1 H2).
Defined.

(** ** binary64: NaN and exact estimates *)

Lemma fold_left_add_nan (l : list B64.t) :
  fold_left (SFadd B64.prec B64.emax) l S754_nan = S754_nan.
Proof. induction l as [|x l IH]; [reflexivity | exact IH]. Qed.

Lemma SFadd_nan_r (x : B64.t) : SFadd B64.prec B64.emax x S754_nan = S754_nan.
Proof. destruct x; reflexivity. Qed.

Lemma np_sum_nan (l : list B64.t) : In S754_nan l -> np_sum l = S754_nan.
Proof.
  unfold np_sum. cbn [add zero Scalar_binary64]. generalize B64.pzero.
  induction l as [|x l IH]; intros acc Hin; [contradiction|].
  destruct Hin as [->|Hin]; cbn [fold_left].
  - rewrite SFadd_nan_r. apply fold_left_add_nan.
  - now apply IH.
Qed.

Lemma relative_error_nan (a : B64.t) : relative_error a S754_nan = S754_nan.
Proof. destruct a; reflexivity. Qed.

(** X3: in binary64, a NaN produced by the integrand at any one of the [N]
    samples makes the whole estimate NaN, and the relative error recorded for
    a NaN estimate is NaN whatever the reference value.  NaN absorbs every
    addition, so this does not depend on the order in which [np.sum] adds. *)
Theorem nan_sample_gives_nan_estimate
    (f : B64.t -> B64.t) (N : Z) (s : RandomState B64.t) (i : nat) :
  (i < Z.to_nat N)%nat ->
  (f (random_sample s (pos s + i)) = S754_nan ->
   Example1.integral_monte_carlo f (Some N) s
     = Ok (S754_nan, advance s (Z.to_nat N))) /\
  (f (standard_exponential s (pos s + i)) = S754_nan ->
   Example2.integral_monte_carlo f (Some N) s
     = Ok (S754_nan, advance s (Z.to_nat N))) /\
  (forall a : B64.t, relative_error a S754_nan = S754_nan).
Proof.
  intros Hi.
  assert (HN : (0 <= N)%Z) by lia.
  assert (Hin : forall g : nat -> B64.t,
             f (g (pos s + i)) = S754_nan ->
             In S754_nan (map f (map g (seq (pos s) (Z.to_nat N))))).
  { intros g Hg. rewrite <- Hg. apply in_map, in_map, in_seq. lia. }
  split; [|split].
  - intros Hf. rewrite uniform_estimator_run by exact HN.
    rewrite (np_sum_nan _ (Hin _ Hf)). reflexivity.
  - intros Hf. rewrite exponential_estimator_run by exact HN.
    rewrite (np_sum_nan _ (Hin _ Hf)). reflexivity.
  - exact relative_error_nan.
Qed.

Lemma nan_sample_gives_nan_estimate_witness :
  (1 < Z.to_nat 3)%nat /\
  Example1.integral_monte_carlo (fun _ : B64.t => S754_nan) (Some 3%Z)
    sample_state_b64 = Ok (S754_nan, advance sample_state_b64 3).
Proof.
  split; [cbn; lia|].
  apply (proj1 (nan_sample_gives_nan_estimate (fun _ => S754_nan) 3%Z
                  sample_state_b64 1 ltac:(cbn; lia))).
  reflexivity.
Defined.

(** X4: in binary64, an estimate that equals the reference bit for bit is
    recorded as the error +0.0 when the reference is finite and not zero;
    when the reference is a zero, an infinity or NaN the recorded value is
    NaN. *)
Theorem relative_error_of_exact_estimate (a : B64.t) :
  relative_error a a =
  match a with
  | S754_finite _ _ _ => S754_zero false
  | S754_zero _ | S754_infinity _ | S754_nan => S754_nan
  end.
Proof.
  destruct a as [s|s| |s m e];
    [destruct s; reflexivity | destruct s; reflexivity | reflexivity |].
  unfold relative_error. cbn [sub div absolute Scalar_binary64 SFsub].
  rewrite Z.sub_diag. cbn. reflexivity.
Qed.

(** ** Real arithmetic: bounds on the estimates of the two cells *)

Section RealEstimates.
Local Open Scope R_scope.

Lemma estimate_at_real (g : nat -> R) (f : R -> R) (p : nat) (N : Z) :
  (0 < N)%Z ->
  estimate_at g f p N = Rsum (map f (map g (seq p (Z.to_nat N)))) / IZR N.
Proof.
  intros HN. destruct (mean_of_draws f g p N HN) as (_ & Hq & _).
  unfold estimate_at. rewrite Hq. unfold Rdiv. ring.
Qed.

Lemma Rsum_bounds (l : list R) (m M : R) :
  Forall (fun y => m <= y <= M) l ->
  INR (length l) * m <= Rsum l <= INR (length l) * M.
Proof.
  induction 1 as [|y l Hy _ IH].
  - cbn. lra.
  - cbn [length]. rewrite S_INR. cbn [Rsum fold_right]. fold (Rsum l). lra.
Qed.

Lemma estimate_at_bounds (g : nat -> R) (f : R -> R) (p : nat) (N : Z) (m M : R) :
  (0 < N)%Z ->
  (forall i, (i < Z.to_nat N)%nat -> m <= f (g (p + i)%nat) <= M) ->
  m <= estimate_at g f p N <= M.
Proof.
  intros HN Hb. rewrite estimate_at_real by exact HN.
  assert (Hall : Forall (fun y => m <= y <= M) (map f (map g (seq p (Z.to_nat N))))).
  { apply Forall_map, Forall_map, Forall_forall. intros j Hj.
    apply in_seq in Hj. replace j with (p + (j - p))%nat by lia.
    apply Hb. lia. }
  apply Rsum_bounds in Hall.
  rewrite !length_map, length_seq, INR_IZR_INZ, Z2Nat.id in Hall by lia.
  assert (Hpos : 0 < IZR N) by (apply IZR_lt; exact HN).
  split.
  - apply (Rmult_le_reg_r (IZR N)); [exact Hpos|].
    unfold Rdiv. rewrite Rmult_assoc, Rinv_l by lra. lra.
  - apply (Rmult_le_reg_r (IZR N)); [exact Hpos|].
    unfold Rdiv. rewrite Rmult_assoc, Rinv_l by lra. lra.
Qed.
End RealEstimates.



(** ** The loop when the arrays do not match or a count is negative *)

Section SweepEdges.
Context {A : Type} `{Scalar A}.
Variable a : A.
Variable est : option Z -> M A A.

(** The loop reads [puntos] only at the indices it visits. *)
Lemma for_range_sweep_agree (P P' : list Z) (n : nat) :
  forall (i0 : nat) (acc : list A) (s : RandomState A),
    (forall i, i0 <= i < i0 + n -> nth_error P i = nth_error P' i) ->
    for_range i0 n (sweep_body a est P) acc s
    = for_range i0 n (sweep_body a est P') acc s.
Proof.
  induction n as [|n IH]; intros i0 acc s Hagree; [reflexivity|].
  cbn [for_range]. unfold bind.
  assert (Hstep : sweep_body a est P i0 acc s = sweep_body a est P' i0 acc s).
  { unfold sweep_body, bind, getitem. rewrite (Hagree i0) by lia. reflexivity. }
  rewrite Hstep. destruct (sweep_body a est P' i0 acc s) as [[acc' s']|e];
    [|reflexivity].
  apply IH. intros i Hi. apply Hagree. lia.
Qed.

(** After the invocations [runs] describes, the loop continues with the
    entries stored so far and the remaining indices. *)
Lemma for_range_sweep_prefix (P : list Z) (Ns : list Z) (s : RandomState A)
    (bs : list A) (s' : RandomState A) :
  runs est Ns s bs s' ->
  forall (m : nat) (done rest1 rest2 : list A),
    length rest1 = length Ns ->
    (forall j, j < length Ns -> nth_error P (length done + j) = nth_error Ns j) ->
    for_range (length done) (length Ns + m) (sweep_body a est P)
      (done ++ rest1 ++ rest2) s
    = for_range (length done + length Ns) m (sweep_body a est P)
        (done ++ map (relative_error a) bs ++ rest2) s'.
Proof.
  induction 1 as [s | N Ns s s1 s' b bs Hb Hruns IH];
    intros m done rest1 rest2 Hrest HP.
  - destruct rest1; [|discriminate]. cbn. now rewrite Nat.add_0_r.
  - destruct rest1 as [|r rest1]; [discriminate|].
    cbn [length Nat.add for_range]. unfold bind at 1.
    unfold sweep_body at 1. unfold bind, getitem.
    specialize (HP 0) as HP0. rewrite Nat.add_0_r in HP0.
    rewrite HP0 by (cbn; lia). cbn [nth_error]. unfold ret at 1. rewrite Hb.
    unfold setitem. cbn [app]. rewrite setitem_list_middle. unfold ret at 1.
    specialize (IH m (done ++ [relative_error a b]) rest1 rest2).
    rewrite last_length, <- !app_assoc in IH. cbn [app] in IH.
    rewrite IH.
    + cbn [map app]. f_equal. lia.
    + cbn in Hrest. congruence.
    + intros j Hj. specialize (HP (S j)). cbn [nth_error length] in HP.
      rewrite <- HP by lia. f_equal. lia.
Qed.

Lemma sweep_ignores_extra_counts (T : nat) (Ns extra : list Z) (s : RandomState A) :
  length Ns = T ->
  convergence_sweep a est T (Ns ++ extra) s = convergence_sweep a est T Ns s.
Proof.
  intros HT. unfold convergence_sweep. apply for_range_sweep_agree.
  intros i Hi. apply nth_error_app1. lia.
Qed.

Hypothesis est_total :
  forall N s, (0 <= N)%Z -> exists b s1, est (Some N) s = Ok (b, s1).

Lemma sweep_too_few_counts (T : nat) (Ns : list Z) (s : RandomState A) :
  length Ns < T ->
  Forall (fun N => (0 <= N)%Z) Ns ->
  convergence_sweep a est T Ns s = Raise IndexError.
Proof.
  intros HT HNs.
  destruct (runs_total est Ns est_total HNs s) as (bs & s' & Hruns).
  unfold convergence_sweep, np_ones.
  replace T with (length Ns + S (T - length Ns - 1)) by lia.
  rewrite repeat_app.
  pose proof (for_range_sweep_prefix Ns Ns s bs s' Hruns
                (S (T - length Ns - 1)) [] (repeat one (length Ns))
                (repeat one (S (T - length Ns - 1)))
                (repeat_length _ _) (fun j _ => eq_refl)) as Hp.
  cbn [length Nat.add app] in Hp. rewrite Hp.
  cbn [for_range]. unfold bind at 1.
  unfold sweep_body at 1. unfold bind, getitem.
  rewrite (proj2 (nth_error_None Ns (length Ns))) by lia. reflexivity.
Qed.

Lemma sweep_failing_count (e : exn) (T : nat) (Ns1 Ns2 : list Z) (N : Z)
    (s : RandomState A) :
  length Ns1 < T ->
  Forall (fun N => (0 <= N)%Z) Ns1 ->
  (forall s, est (Some N) s = Raise e) ->
  convergence_sweep a est T (Ns1 ++ N :: Ns2) s = Raise e.
Proof.
  intros HT HNs Hfail.
  destruct (runs_total est Ns1 est_total HNs s) as (bs & s' & Hruns).
  unfold convergence_sweep, np_ones.
  replace T with (length Ns1 + S (T - length Ns1 - 1)) by lia.
  rewrite repeat_app.
  pose proof (for_range_sweep_prefix (Ns1 ++ N :: Ns2) Ns1 s bs s' Hruns
                (S (T - length Ns1 - 1)) [] (repeat one (length Ns1))
                (repeat one (S (T - length Ns1 - 1)))
                (repeat_length _ _)
                (fun j Hj => nth_error_app1 Ns1 (N :: Ns2) Hj)) as Hp.
  cbn [length Nat.add app] in Hp. rewrite Hp.
  cbn [for_range]. unfold bind at 1.
  unfold sweep_body at 1. unfold bind, getitem.
  rewrite nth_error_middle. unfold ret at 1. now rewrite Hfail.
Qed.
End SweepEdges.

Lemma first_negative_count (Ns : list Z) :
  Exists (fun N => (N < 0)%Z) Ns ->
  exists (Ns1 : list Z) (N : Z) (Ns2 : list Z),
    Ns = Ns1 ++ N :: Ns2 /\ (N < 0)%Z /\ Forall (fun N => (0 <= N)%Z) Ns1.
Proof.
  induction Ns as [|N Ns IH]; intros Hex; [inversion Hex|].
  destruct (Z_lt_le_dec N 0) as [Hneg|Hpos].
  - exists [], N, Ns. repeat split; [exact Hneg | constructor].
  - inversion Hex as [? ? Hn|? ? Hrest]; subst; [lia|].
    destruct (IH Hrest) as (Ns1 & N' & Ns2 & -> & HN' & Hall).
    exists (N :: Ns1), N', Ns2. repeat split; [exact HN' | now constructor].
Qed.

(** X10: the loop of either cell reads exactly the first [T] sample counts:
    counts beyond the first [T] do not change the outcome, and with fewer
    than [T] counts (none negative) the loop ends with [IndexError] at the
    first missing one. *)
Theorem sweep_reads_first_T_counts
    (A : Type) (HA : Scalar A) (f : A -> A) (a : A) (T : nat) (Ns : list Z)
    (s : RandomState A) :
  (length Ns = T ->
   forall extra : list Z,
     Example1.diferencias f a T (Ns ++ extra) s = Example1.diferencias f a T Ns s /\
     Example2.diferencias f a T (Ns ++ extra) s = Example2.diferencias f a T Ns s) /\
  (length Ns < T ->
   Forall (fun N => (0 <= N)%Z) Ns ->
   Example1.diferencias f a T Ns s = Raise IndexError /\
   Example2.diferencias f a T Ns s = Raise IndexError).
Proof.
  split.
  - intros HT extra. split; now apply sweep_ignores_extra_counts.
  - intros HT HNs. split.
    + apply sweep_too_few_counts; [|exact HT|exact HNs].
      intros N s0 HN. eexists _, _. now apply uniform_estimator_run.
    + apply sweep_too_few_counts; [|exact HT|exact HNs].
      intros N s0 HN. eexists _, _. now apply exponential_estimator_run.
Qed.

Lemma sweep_reads_first_T_counts_witness :
  (length [1; 2]%Z < 3)%nat /\
  Forall (fun N => (0 <= N)%Z) [1; 2]%Z /\
  Example1.diferencias (fun x : B64.t => x) one 3 [1; 2]%Z sample_state_b64
    = Raise IndexError.
Proof.
  assert (Hlen : (length [1; 2]%Z < 3)%nat) by (cbn; lia).
  assert (Hpos : Forall (fun N => (0 <= N)%Z) [1; 2]%Z) by (repeat constructor; lia).
  split; [exact Hlen|]. split; [exact Hpos|].
  exact (proj1 (proj2 (sweep_reads_first_T_counts B64.t _ (fun x => x) one 3
                         [1; 2]%Z sample_state_b64) Hlen Hpos)).
Defined.

(** X11: a negative sample count among the [T] counts makes the loop of
    either cell end with the sampler's [ValueError]; no array of errors is
    returned, whatever the counts before and after it. *)
Theorem sweep_negative_count_raises
    (A : Type) (HA : Scalar A) (f : A -> A) (a : A) (T : nat) (Ns : list Z)
    (s : RandomState A) :
  length Ns = T ->
  Exists (fun N => (N < 0)%Z) Ns ->
  Example1.diferencias f a T Ns s = Raise ValueError /\
  Example2.diferencias f a T Ns s = Raise ValueError.
Proof.
  intros HT Hex.
  destruct (first_negative_count Ns Hex) as (Ns1 & N & Ns2 & -> & HN & Hall).
  rewrite length_app in HT. cbn [length] in HT.
  split.
  - apply sweep_failing_count; [|lia|exact Hall|].
    + intros N0 s0 HN0. eexists _, _. now apply uniform_estimator_run.
    + intros s0. now apply uniform_estimator_negative.
  - apply sweep_failing_count; [|lia|exact Hall|].
    + intros N0 s0 HN0. eexists _, _. now apply exponential_estimator_run.
    + intros s0. now apply exponential_estimator_negative.
Qed.

Lemma sweep_negative_count_raises_witness :
  length [4; -1; 2]%Z = 3 /\
  Exists (fun N => (N < 0)%Z) [4; -1; 2]%Z /\
  Example1.diferencias (fun x : B64.t => x) one 3 [4; -1; 2]%Z sample_state_b64
    = Raise ValueError.
Proof.
  assert (Hex : Exists (fun N => (N < 0)%Z) [4; -1; 2]%Z).
  { apply Exists_cons_tl, Exists_cons_hd. lia. }
  split; [reflexivity|]. split; [exact Hex|].
  exact (proj1 (sweep_negative_count_raises B64.t _ (fun x => x) one 3
                  [4; -1; 2]%Z sample_state_b64 eq_refl Hex)).
Defined.

(** ** The reference values are the integrals *)

Section ReferenceValues.
Local Open Scope R_scope.

(** The integral of a continuous function from an antiderivative. *)
Lemma RiemannInt_antiderivative (f F : R -> R) (a b : R)
    (pr : Riemann_integrable f a b) :
  a <= b ->
  continuity f ->
  (forall x, derivable_pt_lim F x (f x)) ->
  RiemannInt pr = F b - F a.
Proof.
  intros Hab Hcont HF.
  assert (H0 : forall x, a <= x <= b -> continuity_pt f x) by (intros; apply Hcont).
  rewrite (RiemannInt_P20 Hab (FTC_P1 Hab H0) pr).
  pose proof (RiemannInt_P29 Hab H0) as H1.
  assert (H2 : antiderivative f F a b).
  { split; [|exact Hab]. intros x _.
    exists (exist _ (f x) (HF x)). reflexivity. }
  destruct (antiderivative_Ucte f _ _ a b H1 H2) as [C HC].
  rewrite !HC by lra. ring.
Qed.

Lemma continuity_exp : continuity exp.
Proof. apply derivable_continuous, derivable_exp. Qed.

Lemma weighted_antiderivative_derivative (x : R) :
  derivable_pt_lim weighted_antiderivative x (weighted_integrand x).
Proof.
  unfold weighted_antiderivative, weighted_integrand, Example2.f.
  assert (pr : derivable_pt (fun x => - (exp (- x) * (sin x + cos x)) / 2) x) by reg.
  apply (derive_pt_eq_1 _ x _ pr). reg. unfold comp. field.
Qed.

Lemma continuity_weighted_integrand : continuity weighted_integrand.
Proof.
  intros x. apply derivable_continuous_pt.
  unfold weighted_integrand, Example2.f. reg.
Qed.

Lemma weighted_antiderivative_bound (b : R) :
  Rabs (weighted_antiderivative b) <= exp (- b).
Proof.
  unfold weighted_antiderivative.
  pose proof (exp_pos (- b)) as He.
  pose proof (sin2_cos2 b) as Hsc. unfold Rsqr in Hsc.
  assert (Hs : -2 <= sin b + cos b <= 2).
  { pose proof (SIN_bound b). pose proof (COS_bound b). lra. }
  apply Rabs_le. nra.
Qed.
End ReferenceValues.

(** X12: the reference value of the first cell is the integral it stands
    for: [exp] is Riemann integrable on [0,1] and its integral there is
    [integral_analitica() = e - 1]. *)
Theorem reference_value_first_cell :
  inhabited (Riemann_integrable Example1.f 0 1) /\
  forall pr : Riemann_integrable Example1.f 0 1,
    RiemannInt pr = Example1.integral_analitica.
Proof.
  split.
  - constructor. apply continuity_implies_RiemannInt; [lra|].
    intros x _. apply continuity_exp.
  - intros pr. unfold Example1.integral_analitica.
    rewrite (RiemannInt_antiderivative Example1.f exp 0 1 pr);
      [now rewrite exp_0 | lra | exact continuity_exp |].
    exact derivable_pt_lim_exp.
Qed.

(** X13: the reference value of the second cell is the integral it stands
    for.  On every interval [0,b] the integral of [exp(-x) * f(x)], the
    integrand weighted by the density of the exponential samples, is
    [1/2 - exp(-b) * (sin b + cos b) / 2]; it differs from
    [integral_analitica() = 1/2] by at most [exp(-b)], hence by less than any
    [eps > 0] for all large [b]. *)
Theorem reference_value_second_cell :
  (forall b : R, (0 <= b)%R ->
     inhabited (Riemann_integrable weighted_integrand 0 b) /\
     forall pr : Riemann_integrable weighted_integrand 0 b,
       RiemannInt pr = (1 / 2 - exp (- b) * (sin b + cos b) / 2)%R /\
       (Rabs (RiemannInt pr - Example2.integral_analitica) <= exp (- b))%R) /\
  (forall eps : R, (0 < eps)%R ->
     exists B : R, (0 <= B)%R /\
       forall b : R, (B <= b)%R ->
         forall pr : Riemann_integrable weighted_integrand 0 b,
           (Rabs (RiemannInt pr - Example2.integral_analitica) < eps)%R).
Proof.
  assert (Hval : forall b : R, (0 <= b)%R ->
            forall pr : Riemann_integrable weighted_integrand 0 b,
              RiemannInt pr = (weighted_antiderivative b + 1 / 2)%R).
  { intros b Hb pr.
    rewrite (RiemannInt_antiderivative weighted_integrand weighted_antiderivative
               0 b pr Hb continuity_weighted_integrand
               weighted_antiderivative_derivative).
    unfold weighted_antiderivative at 2.
    rewrite Ropp_0, exp_0, sin_0, cos_0. lra. }
  assert (Herr : forall b : R, (0 <= b)%R ->
            forall pr : Riemann_integrable weighted_integrand 0 b,
              (Rabs (RiemannInt pr - Example2.integral_analitica) <= exp (- b))%R).
  { intros b Hb pr. rewrite (Hval b Hb pr). unfold Example2.integral_analitica.
    replace (weighted_antiderivative b + 1 / 2 - 1 / 2)%R
      with (weighted_antiderivative b) by ring.
    apply weighted_antiderivative_bound. }
  split.
  - intros b Hb. split.
    + constructor. apply continuity_implies_RiemannInt; [exact Hb|].
      intros x _. apply continuity_weighted_integrand.
    + intros pr. split; [|exact (Herr b Hb pr)].
      rewrite (Hval b Hb pr). unfold weighted_antiderivative. lra.
  - intros eps Heps.
    exists (Rmax 0 (1 - ln eps)). split; [apply Rmax_l|].
    intros b Hb pr.
    assert (Hb0 : (0 <= b)%R) by (pose proof (Rmax_l 0 (1 - ln eps)); lra).
    assert (Hb1 : (1 - ln eps <= b)%R) by (pose proof (Rmax_r 0 (1 - ln eps)); lra).
    apply Rle_lt_trans with (exp (- b)); [exact (Herr b Hb0 pr)|].
    apply Rle_lt_trans with (exp (ln eps - 1)).
    + assert (Hle : (- b <= ln eps - 1)%R) by lra.
      destruct Hle as [Hlt|Heq];
        [left; now apply exp_increasing | rewrite Heq; right; reflexivity].
    + unfold Rminus. rewrite exp_plus, exp_ln by exact Heps.
      assert (H1 : (exp (- (1)) < 1)%R).
      { apply Rlt_le_trans with (exp 0); [apply exp_increasing; lra|].
        rewrite exp_0. lra. }
      pose proof (exp_pos (- (1))). nra.
Qed.

Lemma reference_value_second_cell_witness :
  (0 <= 1)%R /\
  forall pr : Riemann_integrable weighted_integrand 0 1,
    (Rabs (RiemannInt pr - Example2.integral_analitica) <= exp (- 1))%R.
Proof.
  assert (H : (0 <= 1)%R) by lra.
  split; [exact H|]. intros pr.
  exact (proj2 (proj2 (proj1 reference_value_second_cell 1%R H) pr)).
Defined.

(** ** binary64: the sign of the estimate and NaN in the recorded error *)

Section RoundingFacts.
Local Open Scope Z_scope.

(** A positive number with [d] binary digits lies in [[2^(d-1), 2^d)]. *)
Lemma digits2_bounds (p : positive) :
  2 ^ (Zpos (digits2_pos p) - 1) <= Zpos p < 2 ^ Zpos (digits2_pos p).
Proof.
  induction p as [p IH|p IH|]; [| |cbn; lia].
  - cbn [digits2_pos]. rewrite Pos2Z.inj_succ.
    replace (Z.succ (Zpos (digits2_pos p)) - 1) with (Z.succ (Zpos (digits2_pos p) - 1)) by lia.
    rewrite !Z.pow_succ_r by lia. lia.
  - cbn [digits2_pos]. rewrite Pos2Z.inj_succ.
    replace (Z.succ (Zpos (digits2_pos p)) - 1) with (Z.succ (Zpos (digits2_pos p) - 1)) by lia.
    rewrite !Z.pow_succ_r by lia. lia.
Qed.

Lemma Zdigits2_pos_bounds (m : Z) :
  0 < m -> 1 <= Zdigits2 m /\ 2 ^ (Zdigits2 m - 1) <= m < 2 ^ Zdigits2 m.
Proof.
  destruct m as [|p|p]; try lia. intros _. cbn [Zdigits2].
  split; [lia | apply digits2_bounds].
Qed.

Lemma Zdigits2_le (a b : Z) : 0 < a -> a <= b -> Zdigits2 a <= Zdigits2 b.
Proof.
  intros Ha Hab.
  destruct (Zdigits2_pos_bounds a Ha) as (Ha1 & Ha2 & _).
  destruct (Zdigits2_pos_bounds b ltac:(lia)) as (Hb1 & _ & Hb2).
  assert (Hlt : 2 ^ (Zdigits2 a - 1) < 2 ^ Zdigits2 b) by lia.
  apply Z.pow_lt_mono_r_iff in Hlt; lia.
Qed.

Lemma Zdigits2_lt_pow2 (m k : Z) : 0 < m -> 0 <= k -> m < 2 ^ k -> Zdigits2 m <= k.
Proof.
  intros Hm Hk Hlt.
  destruct (Zdigits2_pos_bounds m Hm) as (H1 & H2 & _).
  assert (H : 2 ^ (Zdigits2 m - 1) < 2 ^ k) by lia.
  apply Z.pow_lt_mono_r_iff in H; lia.
Qed.

Lemma iter_pos_nat {X} (g : X -> X) (n : positive) (x : X) :
  iter_pos g n x = Nat.iter (Pos.to_nat n) g x.
Proof.
  revert x. induction n as [n IH|n IH|]; intros x; cbn [iter_pos].
  - rewrite !IH, Pos2Nat.inj_xI.
    replace (S (2 * Pos.to_nat n))%nat with (Pos.to_nat n + (Pos.to_nat n + 1))%nat by lia.
    rewrite !Nat.iter_add. reflexivity.
  - rewrite !IH, Pos2Nat.inj_xO.
    replace (2 * Pos.to_nat n)%nat with (Pos.to_nat n + Pos.to_nat n)%nat by lia.
    rewrite Nat.iter_add. reflexivity.
  - reflexivity.
Qed.

Lemma shr_1_m (r : shr_record) : 0 <= shr_m r -> shr_m (shr_1 r) = shr_m r / 2.
Proof.
  destruct r as [m b c]. cbn [shr_m shr_1]. intros Hm.
  rewrite <- Z.div2_div.
  destruct m as [|[p|p|]|p]; cbn [shr_m]; try reflexivity. lia.
Qed.

Lemma shr_iter_m (k : nat) (r : shr_record) :
  0 <= shr_m r -> shr_m (Nat.iter k shr_1 r) = shr_m r / 2 ^ Z.of_nat k.
Proof.
  intros Hm. induction k as [|k IH].
  - cbn. now rewrite Z.div_1_r.
  - change (Nat.iter (S k) shr_1 r) with (shr_1 (Nat.iter k shr_1 r)).
    rewrite shr_1_m.
    + rewrite IH, Nat2Z.inj_succ, Z.pow_succ_r, Z.div_div by lia.
      f_equal. lia.
    + rewrite IH. apply Z.div_pos; lia.
Qed.

Lemma shr_m_of_loc (m : Z) (l : location) : shr_m (shr_record_of_loc m l) = m.
Proof. destruct l as [|[]]; reflexivity. Qed.

(** Shifting a positive mantissa down to its format keeps it positive and
    bounds the exponent. *)
Lemma shr_fexp_positive (m e : Z) (l : location) :
  0 < m -> -1074 <= e ->
  0 < shr_m (fst (shr_fexp B64.prec B64.emax m e l)) <= m /\
  -1074 <= snd (shr_fexp B64.prec B64.emax m e l) <= Z.max e (Zdigits2 m + e - 53).
Proof.
  intros Hm He.
  destruct (Zdigits2_pos_bounds m Hm) as (HD & Hlo & Hhi).
  unfold shr_fexp, shr, fexp, emin, B64.prec, B64.emax.
  set (D := Zdigits2 m) in *.
  destruct (Z.max (D + e - 53) (3 - 1024 - 53) - e) as [|n|n] eqn:En;
    cbn [fst snd]; rewrite ?shr_m_of_loc; try lia.
  rewrite iter_pos_nat, shr_iter_m, shr_m_of_loc, positive_nat_Z
    by (rewrite shr_m_of_loc; lia).
  assert (Hn : Zpos n <= D - 1) by lia.
  assert (Hpow : 2 ^ Zpos n <= 2 ^ (D - 1)) by (apply Z.pow_le_mono_r; lia).
  split; [split|lia].
  - apply Z.div_str_pos. lia.
  - apply Z.div_le_upper_bound; [lia|]. nia.
Qed.

Lemma round_nearest_even_bounds (m : Z) (l : location) :
  m <= round_nearest_even m l <= m + 1.
Proof. destruct l as [|[]]; cbn; try lia. destruct (Z.even m); lia. Qed.

(** Rounding a positive mantissa of at most 64 digits with an exponent
    between the least one and 0 gives a finite number with the sign asked. *)
Lemma binary_round_aux_finite (sx : bool) (mx ex : Z) (lx : location) :
  0 < mx -> -1074 <= ex <= 0 -> Zdigits2 mx <= 64 ->
  exists (m : positive) (e : Z),
    binary_round_aux B64.prec B64.emax sx mx ex lx = S754_finite sx m e.
Proof.
  intros Hm He HD. unfold binary_round_aux.
  pose proof (shr_fexp_positive mx ex lx Hm ltac:(lia)) as [[Hm1 Hm1'] [He1 He1']].
  destruct (shr_fexp B64.prec B64.emax mx ex lx) as [mrs' e'].
  cbn [fst snd] in Hm1, Hm1', He1, He1'.
  pose proof (round_nearest_even_bounds (shr_m mrs') (loc_of_shr_record mrs')) as Hr.
  set (m2 := round_nearest_even (shr_m mrs') (loc_of_shr_record mrs')) in *.
  assert (Hm2 : 0 < m2) by lia.
  assert (HD2 : Zdigits2 m2 <= 65).
  { apply Zdigits2_lt_pow2; [lia | lia |].
    destruct (Zdigits2_pos_bounds mx Hm) as (_ & _ & Hhi).
    assert (2 ^ Zdigits2 mx <= 2 ^ 64) by (apply Z.pow_le_mono_r; lia).
    change (2 ^ 65) with (2 * 2 ^ 64). lia. }
  pose proof (shr_fexp_positive m2 e' loc_Exact Hm2 ltac:(lia)) as [[Hm3 _] [He3 He3']].
  destruct (shr_fexp B64.prec B64.emax m2 e' loc_Exact) as [mrs'' e''].
  cbn [fst snd] in Hm3, He3, He3'.
  destruct (shr_m mrs'') as [|m|m]; try lia.
  assert (Hle : e'' <= B64.emax - B64.prec) by (unfold B64.emax, B64.prec; lia).
  apply Z.leb_le in Hle. rewrite Hle. now exists m, e''.
Qed.

Lemma digits2_iter_xO (p k : positive) :
  Zpos (digits2_pos (Pos.iter xO p k)) = Zpos (digits2_pos p) + Zpos k.
Proof.
  induction k as [|k IH] using Pos.peano_ind.
  - cbn. lia.
  - rewrite Pos.iter_succ. cbn [digits2_pos]. rewrite Pos2Z.inj_succ, IH. lia.
Qed.

(** The conversion of a sample count to binary64: for [0 < N < 2^63] it is
    a positive finite number. *)
Lemma of_Z_positive_finite (N : Z) :
  0 < N < 2 ^ 63 ->
  exists (m : positive) (e : Z), B64.of_Z N = S754_finite false m e.
Proof.
  intros [HN0 HN]. destruct N as [|p|p]; try lia.
  unfold B64.of_Z, binary_normalize, binary_round.
  assert (Hd : Zpos (digits2_pos p) <= 63).
  { apply (Zdigits2_lt_pow2 (Zpos p) 63); lia. }
  unfold shl_align, fexp, emin, B64.prec, B64.emax.
  rewrite Z.add_0_r, Z.sub_0_r.
  destruct (Z.max (Zpos (digits2_pos p) - 53) (3 - 1024 - 53)) as [|k|k] eqn:Ek.
  - apply (binary_round_aux_finite false (Zpos p) 0 loc_Exact); cbn [Zdigits2]; lia.
  - apply (binary_round_aux_finite false (Zpos p) 0 loc_Exact); cbn [Zdigits2]; lia.
  - apply binary_round_aux_finite; [lia | lia |].
    cbn [Zdigits2]. rewrite digits2_iter_xO. lia.
Qed.
End RoundingFacts.

Section SignFacts.
Local Open Scope Z_scope.

Lemma shr_fexp_nonneg (m e : Z) (l : location) :
  0 <= m -> 0 <= shr_m (fst (shr_fexp B64.prec B64.emax m e l)).
Proof.
  intros Hm. unfold shr_fexp, shr.
  destruct (fexp B64.prec B64.emax (Zdigits2 m + e) - e) as [|n|n];
    cbn [fst]; rewrite ?shr_m_of_loc; try lia.
  rewrite iter_pos_nat, shr_iter_m, shr_m_of_loc by (rewrite shr_m_of_loc; lia).
  apply Z.div_pos; lia.
Qed.

(** Rounding a mantissa that is not negative never gives NaN and gives the
    sign asked. *)
Lemma binary_round_aux_sign (sx : bool) (mx ex : Z) (lx : location) :
  0 <= mx ->
  match binary_round_aux B64.prec B64.emax sx mx ex lx with
  | S754_zero s | S754_infinity s | S754_finite s _ _ => s = sx
  | S754_nan => False
  end.
Proof.
  intros Hm. unfold binary_round_aux.
  pose proof (shr_fexp_nonneg mx ex lx Hm) as H1.
  destruct (shr_fexp B64.prec B64.emax mx ex lx) as [mrs' e']. cbn [fst] in H1.
  pose proof (round_nearest_even_bounds (shr_m mrs') (loc_of_shr_record mrs')) as Hr.
  pose proof (shr_fexp_nonneg
                (round_nearest_even (shr_m mrs') (loc_of_shr_record mrs'))
                e' loc_Exact ltac:(lia)) as H2.
  destruct (shr_fexp B64.prec B64.emax _ e' loc_Exact) as [mrs'' e''].
  cbn [fst] in H2.
  destruct (shr_m mrs'') as [|m|m]; [reflexivity| |lia].
  destruct (e'' <=? B64.emax - B64.prec); reflexivity.
Qed.

Lemma binary_round_aux_nonneg (mx ex : Z) (lx : location) :
  0 <= mx -> is_nonneg (binary_round_aux B64.prec B64.emax false mx ex lx) = true.
Proof.
  intros Hm. pose proof (binary_round_aux_sign false mx ex lx Hm) as H.
  destruct (binary_round_aux B64.prec B64.emax false mx ex lx);
    try (subst; reflexivity). contradiction.
Qed.

Lemma binary_round_aux_not_nan (sx : bool) (mx ex : Z) (lx : location) :
  0 <= mx -> binary_round_aux B64.prec B64.emax sx mx ex lx <> S754_nan.
Proof.
  intros Hm E. pose proof (binary_round_aux_sign sx mx ex lx Hm) as H.
  now rewrite E in H.
Qed.

Lemma binary_normalize_not_nan (m e : Z) (s : bool) :
  binary_normalize B64.prec B64.emax m e s <> S754_nan.
Proof.
  destruct m as [|p|p]; cbn [binary_normalize]; [discriminate| |];
    unfold binary_round;
    destruct (shl_align _ _ _) as [mz ez];
    apply binary_round_aux_not_nan; lia.
Qed.

Lemma SFdiv_core_binary_nonneg (m1 m2 : positive) (e1 e2 : Z) :
  0 <= fst (fst (SFdiv_core_binary B64.prec B64.emax (Zpos m1) e1 (Zpos m2) e2)).
Proof.
  unfold SFdiv_core_binary.
  set (s := e1 - e2 - _).
  set (m' := match s with Zpos _ => Z.shiftl (Zpos m1) s | Z0 => Zpos m1 | Zneg _ => 0 end).
  assert (Hm' : 0 <= m').
  { unfold m'. destruct s; try lia. apply Z.shiftl_nonneg. lia. }
  pose proof (Z.div_pos m' (Zpos m2) Hm' ltac:(lia)) as Hq.
  unfold Z.div in Hq.
  destruct (Z.div_eucl m' (Zpos m2)) as [q r]. exact Hq.
Qed.

Lemma SFadd_nonneg (x y : B64.t) :
  is_nonneg x = true -> is_nonneg y = true ->
  is_nonneg (SFadd B64.prec B64.emax x y) = true.
Proof.
  destruct x as [[]|[]| |[] mx ex], y as [[]|[]| |[] my ey];
    try discriminate; try reflexivity.
  intros _ _. cbn [SFadd cond_Zopp Z.add binary_normalize]. unfold binary_round.
  destruct (shl_align _ _ _) as [mz ez].
  apply binary_round_aux_nonneg. lia.
Qed.

Lemma SFdiv_nonneg (x : B64.t) (m : positive) (e : Z) :
  is_nonneg x = true ->
  is_nonneg (SFdiv B64.prec B64.emax x (S754_finite false m e)) = true.
Proof.
  destruct x as [[]|[]| |[] mx ex]; try discriminate; try reflexivity.
  intros _. cbn [SFdiv xorb].
  pose proof (SFdiv_core_binary_nonneg mx m ex e) as Hq.
  destruct (SFdiv_core_binary B64.prec B64.emax (Zpos mx) ex (Zpos m) e)
    as [[mz ez] lz].
  now apply binary_round_aux_nonneg.
Qed.

Lemma SFdiv_finite_not_nan (x : B64.t) (s : bool) (m : positive) (e : Z) :
  x <> S754_nan -> SFdiv B64.prec B64.emax x (S754_finite s m e) <> S754_nan.
Proof.
  destruct x as [sx|sx| |sx mx ex]; try discriminate; [congruence|].
  intros _. cbn [SFdiv].
  pose proof (SFdiv_core_binary_nonneg mx m ex e) as Hq.
  destruct (SFdiv_core_binary B64.prec B64.emax (Zpos mx) ex (Zpos m) e)
    as [[mz ez] lz].
  now apply binary_round_aux_not_nan.
Qed.

Lemma SFsub_finite_not_nan (s : bool) (m : positive) (e : Z) (y : B64.t) :
  y <> S754_nan -> SFsub B64.prec B64.emax (S754_finite s m e) y <> S754_nan.
Proof.
  destruct y as [sy|sy| |sy my ey]; try discriminate; [congruence|].
  intros _. cbn [SFsub]. apply binary_normalize_not_nan.
Qed.
End SignFacts.

Lemma np_sum_nonneg (l : list B64.t) :
  Forall (fun y => is_nonneg y = true) l -> is_nonneg (np_sum l) = true.
Proof.
  unfold np_sum. cbn [add zero Scalar_binary64].
  assert (H0 : is_nonneg B64.pzero = true) by reflexivity.
  revert H0. generalize B64.pzero.
  induction l as [|y l IH]; intros acc Hacc Hall; [exact Hacc|].
  inversion Hall as [|? ? Hy Hl]; subst. cbn [fold_left].
  apply IH; [now apply SFadd_nonneg | exact Hl].
Qed.

Lemma estimate_at_nonneg (g : nat -> B64.t) (f : B64.t -> B64.t) (p : nat) (N : Z) :
  (0 < N < 2 ^ 63)%Z ->
  (forall i, (i < Z.to_nat N)%nat -> is_nonneg (f (g (p + i)%nat)) = true) ->
  is_nonneg (estimate_at g f p N) = true.
Proof.
  intros HN Hf. unfold estimate_at. cbn [div of_int Scalar_binary64].
  destruct (of_Z_positive_finite N HN) as (m & e & ->).
  apply SFdiv_nonneg, np_sum_nonneg.
  apply Forall_map, Forall_map, Forall_forall. intros j Hj.
  apply in_seq in Hj. replace j with (p + (j - p))%nat by lia.
  apply Hf. lia.
Qed.

(** X5: in binary64, for [0 < N < 2^63], if the integrand is neither
    negative nor NaN at each of the [N] samples drawn, the estimate of either
    estimator is neither negative nor NaN: it is +0.0, a positive finite
    number or +infinity.  Sums of such numbers stay such in every order of
    addition, so this does not depend on the order in which [np.sum] adds. *)
Theorem nonnegative_integrand_nonnegative_estimate
    (f : B64.t -> B64.t) (N : Z) (s : RandomState B64.t) :
  (0 < N < 2 ^ 63)%Z ->
  ((forall i, (i < Z.to_nat N)%nat ->
      is_nonneg (f (random_sample s (pos s + i))) = true) ->
   exists b : B64.t,
     Example1.integral_monte_carlo f (Some N) s = Ok (b, advance s (Z.to_nat N)) /\
     is_nonneg b = true) /\
  ((forall i, (i < Z.to_nat N)%nat ->
      is_nonneg (f (standard_exponential s (pos s + i))) = true) ->
   exists b : B64.t,
     Example2.integral_monte_carlo f (Some N) s = Ok (b, advance s (Z.to_nat N)) /\
     is_nonneg b = true).
Proof.
  intros HN. split; intros Hf.
  - eexists. split; [apply uniform_estimator_run; lia|].
    exact (estimate_at_nonneg (random_sample s) f (pos s) N HN Hf).
  - eexists. split; [apply exponential_estimator_run; lia|].
    exact (estimate_at_nonneg (standard_exponential s) f (pos s) N HN Hf).
Qed.

Lemma nonnegative_integrand_nonnegative_estimate_witness :
  (0 < 3 < 2 ^ 63)%Z /\
  exists b : B64.t,
    Example1.integral_monte_carlo (fun x : B64.t => x) (Some 3%Z) tenth_state
      = Ok (b, advance tenth_state 3) /\
    is_nonneg b = true.
Proof.
  assert (HN : (0 < 3 < 2 ^ 63)%Z) by lia.
  split; [exact HN|].
  apply (proj1 (nonnegative_integrand_nonnegative_estimate
                  (fun x => x) 3%Z tenth_state HN)).
  intros i _. reflexivity.
Defined.

(** X9: in binary64, the recorded error [np.abs((a-b)/a)] is NaN exactly
    when the reference [a] is NaN or an infinity, or the estimate [b] is NaN,
    or reference and estimate are both zero; in every other case it is
    neither negative nor NaN.  In particular, with a finite reference that is
    not zero the error is NaN only for a NaN estimate. *)
Theorem relative_error_nan_cases (a b : B64.t) :
  (relative_error a b = S754_nan <->
   match a, b with
   | S754_nan, _ | _, S754_nan => True
   | S754_infinity _, _ => True
   | S754_zero _, S754_zero _ => True
   | _, _ => False
   end) /\
  (relative_error a b <> S754_nan -> is_nonneg (relative_error a b) = true).
Proof.
  assert (Habs : forall x : B64.t, x <> S754_nan -> is_nonneg (SFabs x) = true).
  { intros [sx|sx| |sx mx ex] Hx; try reflexivity. congruence. }
  assert (Hnan : forall x : B64.t, SFabs x = S754_nan -> x = S754_nan).
  { intros [sx|sx| |sx mx ex] Hx; try discriminate. reflexivity. }
  split.
  - destruct a as [sa|sa| |sa ma ea].
    + destruct b as [sb|sb| |sb mb eb], sa; try destruct sb;
        cbn; split; intros H; try discriminate; try contradiction; reflexivity.
    + destruct b as [sb|sb| |sb mb eb], sa; try destruct sb;
        cbn; split; intros H; try discriminate; try contradiction; reflexivity.
    + destruct b; cbn; split; intros H; try exact I; reflexivity.
    + assert (Hfin : b <> S754_nan ->
                relative_error (S754_finite sa ma ea) b <> S754_nan).
      { intros Hb E. apply Hnan in E. revert E.
        apply SFdiv_finite_not_nan. now apply SFsub_finite_not_nan. }
      destruct b as [sb|sb| |sb mb eb]; split; intros H;
        try contradiction; try exact I; try reflexivity;
        exfalso; revert H; apply Hfin; discriminate.
  - intros Hne. unfold relative_error in *.
    cbn [absolute Scalar_binary64] in *. apply Habs.
    intros E. apply Hne. now rewrite E.
Qed.

Lemma relative_error_nan_cases_witness :
  relative_error (S754_finite false 4503599627370496 (-52)) tenth <> S754_nan /\
  is_nonneg (relative_error (S754_finite false 4503599627370496 (-52)) tenth)
    = true.
Proof.
  assert (H : relative_error (S754_finite false 4503599627370496 (-52)) tenth
              <> S754_nan) by (vm_compute; discriminate).
  split; [exact H|].
  exact (proj2 (relative_error_nan_cases
                  (S754_finite false 4503599627370496 (-52)) tenth) H).
Defined.
